(** * neupy.algorithms.gd.quasi_newton

    A shallow embedding of the quasi-Newton optimiser of neupy
    ([src/neupy/algorithms/gd/quasi_newton.py]): the four inverse-Hessian
    update functions [bfgs], [dfp], [psb] and [sr1], the trial evaluation
    [prediction] that substitutes and restores layer attributes, and the
    step controller [QuasiNewton.init_train_updates].

    The Theano expressions the module builds are read through their
    value: a tensor expression is the tensor it evaluates to.  Scalars
    are kept abstract behind the interface [Scalar], which has two
    instances: IEEE-754 binary64 numbers (Theano's default [floatX]),
    on which the numerical guards are studied, and the real numbers,
    in which the algebraic identities are read. *)

From Stdlib Require Import ZArith List Bool Lia String Reals Lra Ring.
From Stdlib Require Import Floats.SpecFloat.
From stdpp Require Import base list.
Import ListNotations.

(** ** Scalars *)

(** The operations of [floatX] that the module uses, directly or through
    the Theano operators it calls. *)
Class Scalar (F : Type) : Type := {
  f_of_Z : Z -> F;
  f_add : F -> F -> F;
  f_sub : F -> F -> F;
  f_mul : F -> F -> F;
  f_div : F -> F -> F;
  f_neg : F -> F;
  f_abs : F -> F;
  f_sqrt : F -> F;
  f_sgn : F -> F;
  f_lt : F -> F -> bool;
  f_isinf : F -> bool
}.

Declare Scope scalar_scope.
Delimit Scope scalar_scope with fl.
Infix "+" := f_add : scalar_scope.
Infix "-" := f_sub : scalar_scope.
Infix "*" := f_mul : scalar_scope.
Infix "/" := f_div : scalar_scope.
Notation "- x" := (f_neg x) : scalar_scope.

(** [neupy.utils.asfloat] casts a Python number to [floatX]; on the
    integer literals of this module it is [f_of_Z]. *)
Definition asfloat {F} `{Scalar F} (z : Z) : F := f_of_Z z.

(** ** Tensors and the Theano operators used by the module

    A vector is the list of its entries and a matrix the list of its
    rows.  Theano checks shapes when the graph runs and raises on a
    mismatch; here the operators are total (an elementwise operator
    stops at the shorter operand), and the properties that depend on
    shapes state them. *)

Abbreviation vector F := (list F).
Abbreviation matrix F := (list (list F)).

Module T.
Section Ops.
Context {F : Type} `{Scalar F}.

(** Entry access, with the zero of [F] read outside the tensor. *)
Definition vget (v : vector F) (i : nat) : F := nth i v (asfloat 0).
Definition mget (M : matrix F) (i j : nat) : F := vget (nth i M []) j.

(** [T.ifelse]: the lazy conditional; only the selected branch is
    evaluated. *)
Definition ifelse {A} (c : bool) (t e : A) : A := if c then t else e.

Definition isinf (x : F) : bool := f_isinf x.
Definition sgn (x : F) : F := f_sgn x.
Definition abs_ (x : F) : F := f_abs x.
Definition lt (x y : F) : bool := f_lt x y.

(** [T.clip x lo hi] is [lo] below [lo], [hi] above [hi], [x] otherwise
    (so a NaN passes through). *)
Definition clip1 (lo hi x : F) : F :=
  if f_lt x lo then lo else if f_lt hi x then hi else x.

(** Sums accumulate from zero, left to right, as the reference BLAS
    loops do, each product rounded on its own.  An optimised BLAS may
    sum in another order or fuse a product with the addition: on
    binary64 the last bits of a sum are those of this order, and the
    properties stated on binary64 are about exact cases, infinities and
    NaN, which no order changes. *)
Definition sum (l : list F) : F := fold_left f_add l (asfloat 0).

(** [T.dot] on two vectors. *)
Definition dot (x y : vector F) : F := sum (zip_with f_mul x y).

(** [M.dot(v)] for a matrix and a vector. *)
Definition dot_mv (M : matrix F) (v : vector F) : vector F :=
  map (fun row => dot row v) M.

Definition ncols (M : matrix F) : nat := length (hd [] M).
Definition col (M : matrix F) (j : nat) : vector F :=
  map (fun row => vget row j) M.

(** [A.dot(B)] for two matrices. *)
Definition dot_mm (A B : matrix F) : matrix F :=
  map (fun row => map (fun j => dot row (col B j)) (seq 0 (ncols B))) A.

Definition transpose (M : matrix F) : matrix F :=
  map (col M) (seq 0 (ncols M)).

(** [T.outer]. *)
Definition outer (x y : vector F) : matrix F :=
  map (fun xi => map (fun yj => (xi * yj)%fl) y) x.

(** [T.eye n]. *)
Definition eye (n : nat) : matrix F :=
  map (fun i => map (fun j => if Nat.eqb i j then asfloat 1 else asfloat 0)
                  (seq 0 n)) (seq 0 n).

Definition zeros (n : nat) : vector F := repeat (asfloat 0) n.

(** Elementwise operators, and the operators that broadcast a scalar
    over a tensor. *)
Definition map_m (f : F -> F) (M : matrix F) : matrix F := map (map f) M.
Definition zip_m (f : F -> F -> F) (A B : matrix F) : matrix F :=
  zip_with (zip_with f) A B.

Definition add (A B : matrix F) : matrix F := zip_m f_add A B.
Definition sub (A B : matrix F) : matrix F := zip_m f_sub A B.
Definition mul (A B : matrix F) : matrix F := zip_m f_mul A B.
Definition scale_r (M : matrix F) (c : F) : matrix F :=
  map_m (fun e => (e * c)%fl) M.
Definition scale_l (c : F) (M : matrix F) : matrix F :=
  map_m (fun e => (c * e)%fl) M.
Definition div_s (M : matrix F) (c : F) : matrix F :=
  map_m (fun e => (e / c)%fl) M.
Definition clip (M : matrix F) (lo hi : F) : matrix F :=
  map_m (clip1 lo hi) M.

Definition vadd (x y : vector F) : vector F := zip_with f_add x y.
Definition vsub (x y : vector F) : vector F := zip_with f_sub x y.
Definition vneg (x : vector F) : vector F := map f_neg x.
Definition vscale_l (c : F) (x : vector F) : vector F :=
  map (fun e => (c * e)%fl) x.

(** [x.norm(L=2)], which Theano builds as
    [pow(pow(abs_(x), 2).sum(), 1/2)]: the square root of the sum of the
    squared absolute values. *)
Definition norm2 (x : vector F) : F :=
  f_sqrt (sum (map (fun e => (f_abs e * f_abs e)%fl) x)).

(** Shapes. *)
Definition is_vector (n : nat) (v : vector F) : Prop := length v = n.
Definition is_matrix (n m : nat) (M : matrix F) : Prop :=
  length M = n /\ Forall (fun row => length row = m) M.
End Ops.
End T.

(** ** The four update functions

    Keyword arguments are the last parameter; [devider ** 2] is the
    product of [devider] with itself. *)

Section UpdateFunctions.
Context {F : Type} `{Scalar F}.

Definition bfgs (inverse_hessian : matrix F)
    (weight_delta gradient_delta : vector F) (maxrho : F) : matrix F :=
  let ident_matrix := T.eye (length inverse_hessian) in
  let rho := (asfloat 1 / T.dot gradient_delta weight_delta)%fl in
  let rho := T.ifelse (T.isinf rho) (maxrho * T.sgn rho)%fl rho in
  let param1 :=
    T.sub ident_matrix (T.scale_r (T.outer weight_delta gradient_delta) rho) in
  let param2 :=
    T.sub ident_matrix (T.scale_r (T.outer gradient_delta weight_delta) rho) in
  let param3 := T.scale_l rho (T.outer weight_delta weight_delta) in
  T.add (T.dot_mm (T.dot_mm param1 inverse_hessian) param2) param3.

Definition dfp (inverse_hessian : matrix F)
    (weight_delta gradient_delta : vector F) (maxnum : F) : matrix F :=
  let quasi_dot_gradient := T.dot_mv inverse_hessian gradient_delta in
  let param1 :=
    T.div_s (T.outer weight_delta weight_delta)
            (T.dot gradient_delta weight_delta) in
  let param2_numerator :=
    T.clip (T.mul (T.outer quasi_dot_gradient gradient_delta) inverse_hessian)
           (- maxnum)%fl maxnum in
  let param2_denominator := T.dot gradient_delta quasi_dot_gradient in
  let param2 := T.div_s param2_numerator param2_denominator in
  T.sub (T.add inverse_hessian param1) param2.

Definition psb (inverse_hessian : matrix F)
    (weight_delta gradient_delta : vector F) : matrix F :=
  let gradient_delta_t := gradient_delta in
  let param := T.vsub weight_delta (T.dot_mv inverse_hessian gradient_delta) in
  let devider := (asfloat 1 / T.dot gradient_delta gradient_delta)%fl in
  let param1 :=
    T.add (T.outer param gradient_delta) (T.outer gradient_delta param) in
  let param2 :=
    T.scale_l (T.dot gradient_delta param)
              (T.outer gradient_delta gradient_delta_t) in
  T.sub (T.add inverse_hessian (T.scale_r param1 devider))
        (T.scale_r param2 (devider * devider)%fl).

Definition sr1 (inverse_hessian : matrix F)
    (weight_delta gradient_delta : vector F) (epsilon : F) : matrix F :=
  let param := T.vsub weight_delta (T.dot_mv inverse_hessian gradient_delta) in
  let denominator := T.dot param gradient_delta in
  T.ifelse
    (T.lt (T.abs_ denominator)
          (epsilon * T.norm2 param * T.norm2 gradient_delta)%fl)
    inverse_hessian
    (T.add inverse_hessian (T.div_s (T.outer param param) denominator)).

(** The default values of the keyword arguments. *)
Definition default_maxrho : F := asfloat 10000.
Definition default_maxnum : F := asfloat 100000.
Definition default_epsilon : F := (asfloat 1 / asfloat 100000000)%fl.
End UpdateFunctions.

(** ** IEEE-754 binary64 *)

Module B64.
Definition prec : Z := 53.
Definition emax : Z := 1024.

Definition of_Z (z : Z) : spec_float := binary_normalize prec emax z 0 false.

(** [z * 2^e]. *)
Definition of_pow2 (z e : Z) : spec_float := binary_normalize prec emax z e false.

Definition isinf (x : spec_float) : bool :=
  match x with S754_infinity _ => true | _ => false end.

Definition isnan (x : spec_float) : bool :=
  match x with S754_nan => true | _ => false end.

Definition is_finite (x : spec_float) : bool :=
  match x with S754_zero _ | S754_finite _ _ _ => true | _ => false end.

(** The sign as Theano computes it: 1 above zero, -1 below, NaN on a
    NaN and zero otherwise. *)
Definition sgn (x : spec_float) : spec_float :=
  match x with
  | S754_nan => S754_nan
  | S754_zero _ => S754_zero false
  | S754_infinity s | S754_finite s _ _ =>
      if s then of_Z (-1) else of_Z 1
  end.

Definition all_finite (M : matrix spec_float) : bool :=
  forallb (forallb is_finite) M.
Definition vector_finite (v : vector spec_float) : bool := forallb is_finite v.
End B64.

#[export] Instance binary64 : Scalar spec_float := {|
  f_of_Z := B64.of_Z;
  f_add := SFadd B64.prec B64.emax;
  f_sub := SFsub B64.prec B64.emax;
  f_mul := SFmul B64.prec B64.emax;
  f_div := SFdiv B64.prec B64.emax;
  f_neg := SFopp;
  f_abs := SFabs;
  f_sqrt := SFsqrt B64.prec B64.emax;
  f_sgn := B64.sgn;
  f_lt := SFltb;
  f_isinf := B64.isinf
|}.

(** ** Real numbers *)

Module Real.
Definition lt (x y : R) : bool := if Rlt_dec x y then true else false.

Definition sgn (x : R) : R :=
  if Rlt_dec 0 x then 1%R else if Rlt_dec x 0 then (-1)%R else 0%R.
End Real.

(** Exact arithmetic has no infinite value: [isinf] is constantly false. *)
#[export] Instance real : Scalar R := {|
  f_of_Z := IZR;
  f_add := Rplus;
  f_sub := Rminus;
  f_mul := Rmult;
  f_div := Rdiv;
  f_neg := Ropp;
  f_abs := Rabs;
  f_sqrt := sqrt;
  f_sgn := Real.sgn;
  f_lt := Real.lt;
  f_isinf := fun _ => false
|}.

(** ** Laws of the scalar operations *)

(** Addition and multiplication commute; this much holds in IEEE
    arithmetic as well as in exact arithmetic. *)
Class CommutativeOps (F : Type) `{Scalar F} : Prop := {
  f_add_comm : forall x y : F, (x + y)%fl = (y + x)%fl;
  f_mul_comm : forall x y : F, (x * y)%fl = (y * x)%fl
}.

(** The laws of a commutative ring, which exact arithmetic obeys and
    rounded arithmetic does not. *)
Class ExactRing (F : Type) `{Scalar F} : Prop := {
  exact_add_0_l : forall x : F, (asfloat 0 + x)%fl = x;
  exact_add_comm : forall x y : F, (x + y)%fl = (y + x)%fl;
  exact_add_assoc : forall x y z : F, (x + (y + z))%fl = ((x + y) + z)%fl;
  exact_mul_1_l : forall x : F, (asfloat 1 * x)%fl = x;
  exact_mul_comm : forall x y : F, (x * y)%fl = (y * x)%fl;
  exact_mul_assoc : forall x y z : F, (x * (y * z))%fl = ((x * y) * z)%fl;
  exact_distr_l : forall x y z : F, ((x + y) * z)%fl = (x * z + y * z)%fl;
  exact_sub_def : forall x y : F, (x - y)%fl = (x + - y)%fl;
  exact_opp_def : forall x : F, (x + - x)%fl = asfloat 0
}.

Definition exact_ring_theory {F} `{ExactRing F} :
  ring_theory (asfloat 0) (asfloat 1) f_add f_mul f_sub f_neg (@eq F) :=
  mk_rt _ _ _ _ _ _ _
    exact_add_0_l exact_add_comm exact_add_assoc
    exact_mul_1_l exact_mul_comm exact_mul_assoc
    exact_distr_l exact_sub_def exact_opp_def.

#[export] Instance exact_commutative {F} `{ExactRing F} : CommutativeOps F :=
  {| f_add_comm := exact_add_comm; f_mul_comm := exact_mul_comm |}.

(** ** Python objects: shared variables, layers and their attributes *)

Section Objects.
Context {F : Type}.

(** A tensor value: its shape and its entries in row-major order. *)
Record tensor : Type := Tensor { shape : list nat; data : vector F }.

(** A Theano expression built during the line search is read as a
    function of the value of the scalar it is built from. *)
Definition sym (A : Type) : Type := F -> A.

(** The objects bound to layer attributes: a shared variable, known by
    its identity, or an expression. *)
Inductive pyobj : Type :=
| Shared (id : nat)
| Graph (e : sym tensor).

(** A layer: what [inspect.getmembers] lists for it, by name, and its
    [parameters], a list of shared variables. *)
Record layer : Type := Layer {
  members : list (string * pyobj);
  parameters : list nat
}.

(** [value is parameter]. *)
Definition is_ (value : pyobj) (parameter : nat) : bool :=
  match value with
  | Shared id => Nat.eqb id parameter
  | Graph _ => false
  end.

Fixpoint first_member_with (ms : list (string * pyobj)) (parameter : nat)
    : option string :=
  match ms with
  | [] => None
  | (member_name, member_value) :: rest =>
      if is_ member_value parameter then Some member_name
      else first_member_with rest parameter
  end.

(** [find_param_name]: the first member that is the parameter, [None]
    when the loop ends without one. *)
Definition find_param_name (l : layer) (parameter : nat) : option string :=
  first_member_with (members l) parameter.

(** [iter_layers_and_parameters]; a layer is named by its position in
    [layers]. *)
Definition iter_layers_and_parameters (layers : list layer)
    : list (nat * option string * nat) :=
  concat (imap (fun i l =>
                  map (fun parameter => (i, find_param_name l parameter, parameter))
                      (parameters l))
               layers).

(** Attribute assignment on the members of an object: the value bound
    to a name is replaced in place; a name not bound yet is added at
    its place in the order of the names. *)
Definition bound (name : string) (ms : list (string * pyobj)) : bool :=
  existsb (fun kv => String.eqb (fst kv) name) ms.

Definition rebind (name : string) (v : pyobj) (ms : list (string * pyobj))
    : list (string * pyobj) :=
  map (fun kv => if String.eqb (fst kv) name then (fst kv, v) else kv) ms.

Fixpoint bind_new (name : string) (v : pyobj) (ms : list (string * pyobj))
    : list (string * pyobj) :=
  match ms with
  | [] => [(name, v)]
  | kv :: rest =>
      if String.ltb name (fst kv) then (name, v) :: kv :: rest
      else kv :: bind_new name v rest
  end.

Definition set_member (name : string) (v : pyobj) (l : layer) : layer :=
  {| members := if bound name (members l) then rebind name v (members l)
                else bind_new name v (members l);
     parameters := parameters l |}.
End Objects.

Arguments tensor F : clear implicits.
Arguments sym F A : clear implicits.
Arguments pyobj F : clear implicits.
Arguments layer F : clear implicits.

(** ** Python effects: the attribute store and exceptions *)

Inductive exn : Type := TypeError | ValueError.

Inductive result (A : Type) : Type :=
| Ok (a : A)
| Raise (e : exn).
Arguments Ok {A} a.
Arguments Raise {A} e.

(** A computation that reads and writes the layers of the network and
    may raise; what an exception leaves behind is not followed. *)
Definition py (F A : Type) : Type :=
  list (layer F) -> result (A * list (layer F)).

Definition ret {F A} (a : A) : py F A := fun layers => Ok (a, layers).

Definition bind {F A B} (c : py F A) (k : A -> py F B) : py F B :=
  fun layers =>
    match c layers with
    | Ok (a, layers') => k a layers'
    | Raise e => Raise e
    end.

Definition raise {F A} (e : exn) : py F A := fun _ => Raise e.

#[export] Instance py_ret {F} : MRet (py F) := fun A a => ret a.
#[export] Instance py_bind {F} : MBind (py F) := fun A B k c => bind c k.

(** [setattr(layer, attrname, value)]; an attribute name that is [None]
    is a [TypeError].  Every other assignment succeeds: a layer is a
    plain object here, and a class whose members refuse assignment is
    not followed. *)
Definition setattr {F} (layer_ : nat) (attrname : option string) (value : pyobj F)
    : py F unit :=
  match attrname with
  | None => raise TypeError
  | Some name => fun layers => Ok (tt, alter (set_member name value) layer_ layers)
  end.

(** ** The optimiser's shared variables and its collaborators *)

(** The values held by the Theano shared variables when one training
    iteration runs: the parameters of the layers, by identity, the epoch
    counter, and the three variables [init_variables] adds. *)
Record shared_state (F : Type) : Type := SharedState {
  get_value : nat -> tensor F;
  epoch : Z;
  inv_hessian : matrix F;
  prev_params : vector F;
  prev_full_gradient : vector F
}.
Arguments SharedState {F}.
Arguments get_value {F}.
Arguments epoch {F}.
Arguments inv_hessian {F}.
Arguments prev_params {F}.
Arguments prev_full_gradient {F}.

(** What the optimiser takes from outside this module: the output of the
    connection, built from the attributes the layers hold when it is
    called; the error function; Theano's differentiation with respect to
    a scalar and with respect to the parameters; and the line search of
    [neupy.optimizations.wolfe]. *)
Class Network (F : Type) : Type := {
  Out : Type;
  connection_output : list (layer F) -> sym F Out;
  error : sym F Out -> sym F F;
  grad_wrt_step : sym F F -> sym F F -> sym F F;
  grad_wrt_params : (nat -> tensor F) -> list nat -> list (tensor F);
  line_search :
    (sym F F -> py F (sym F F)) -> (sym F F -> py F (sym F F)) -> py F F
}.

Section QuasiNewton.
Context {F : Type} `{Scalar F} `{Network F}.

(** [param.size], [v[start:end]], [T.reshape] and [t.flatten()]. *)
Definition tensor_size (t : tensor F) : nat := fold_right Nat.mul 1 (shape t).
Definition slice (v : vector F) (start_pos end_pos : nat) : vector F :=
  take (end_pos - start_pos) (drop start_pos v).
Definition reshape (v : vector F) (like : tensor F) : tensor F :=
  {| shape := shape like; data := v |}.
Definition flatten (t : tensor F) : vector F := data t.

(** Modelled from the spec: [neupy.algorithms.utils.iter_parameters],
    the parameters of the layers "in a fixed, stable order", which is
    the order [iter_layers_and_parameters] visits them in. *)
Definition iter_parameters (layers : list (layer F)) : list nat :=
  concat (map parameters layers).

(** Modelled from the spec: [neupy.algorithms.utils.parameters2vector],
    "flattening each tensor in a fixed, stable order and
    concatenating". *)
Definition parameters2vector (values : nat -> tensor F) (layers : list (layer F))
    : vector F :=
  concat (map (fun param => flatten (values param)) (iter_parameters layers)).

(** The updates of one training iteration: a shared variable and the
    value it takes. *)
Inductive update : Type :=
| SetParameter (parameter : nat) (value : tensor F)
| SetInvHessian (value : matrix F)
| SetPrevParams (value : vector F)
| SetPrevFullGradient (value : vector F).

(** Modelled from the spec: [neupy.algorithms.utils.setup_parameter_updates],
    which de-vectorises, "each [tensor] reconstructed by slicing the
    vector at the precomputed offsets and reshaping", as the loop of
    [prediction] does. *)
Fixpoint setup_parameter_updates_from (start_position : nat)
    (values : nat -> tensor F) (parameters : list nat)
    (parameter_update_vector : vector F) : list update :=
  match parameters with
  | [] => []
  | parameter :: rest =>
      let end_position := start_position + tensor_size (values parameter) in
      let new_parameter :=
        reshape (slice parameter_update_vector start_position end_position)
                (values parameter) in
      SetParameter parameter new_parameter
        :: setup_parameter_updates_from end_position values rest
             parameter_update_vector
  end.

Definition setup_parameter_updates := setup_parameter_updates_from 0.

(** *** [prediction], [phi] and [derphi]

    The three closures of [init_train_updates], over the variables they
    capture. *)

Section Probes.
Variable values : nat -> tensor F.
Variables param_vector param_delta : vector F.
Variable layers_and_parameters : list (nat * option string * nat).

(** The first loop of [prediction]: each parameter attribute is bound
    to its slice of the trial vector. *)
Fixpoint substitute_parameters (updated_params : sym F (vector F))
    (start_pos : nat) (lps : list (nat * option string * nat)) : py F unit :=
  match lps with
  | [] => mret tt
  | (layer_, attrname, param) :: rest =>
      let end_pos := start_pos + tensor_size (values param) in
      let updated_param_value : sym F (tensor F) :=
        fun t => reshape (slice (updated_params t) start_pos end_pos)
                         (values param) in
      setattr layer_ attrname (Graph updated_param_value) ;;
      substitute_parameters updated_params end_pos rest
  end.

(** The second loop: each attribute is bound to the shared variable
    again. *)
Fixpoint restore_parameters (lps : list (nat * option string * nat))
    : py F unit :=
  match lps with
  | [] => mret tt
  | (layer_, attrname, param) :: rest =>
      setattr layer_ attrname (Shared param) ;;
      restore_parameters rest
  end.

Definition output_of_connection : py F (sym F Out) :=
  fun layers => Ok (connection_output layers, layers).

Definition prediction (step : sym F F) : py F (sym F Out) :=
  let updated_params : sym F (vector F) :=
    fun t => T.vadd param_vector (T.vscale_l (step t) param_delta) in
  substitute_parameters updated_params 0 layers_and_parameters ;;
  output ← output_of_connection ;
  restore_parameters layers_and_parameters ;;
  mret output.

Definition phi (step : sym F F) : py F (sym F F) :=
  output ← prediction step ;
  mret (error output).

Definition derphi (step : sym F F) : py F (sym F F) :=
  error_func ← (output ← prediction step ; mret (error output)) ;
  mret (grad_wrt_step error_func step).
End Probes.

(** *** The step controller *)

Definition update_fn : Type := matrix F -> vector F -> vector F -> matrix F.

Definition new_inv_hessian (update_function : update_fn) (self : shared_state F)
    (param_vector full_gradient : vector F) : matrix F :=
  T.ifelse (Z.eqb (epoch self) 1)
    (inv_hessian self)
    (update_function (inv_hessian self)
                     (T.vsub param_vector (prev_params self))
                     (T.vsub full_gradient (prev_full_gradient self))).

Definition param_delta_of (new_inv_hessian_ : matrix F) (full_gradient : vector F)
    : vector F :=
  T.vneg (T.dot_mv new_inv_hessian_ full_gradient).

Definition init_train_updates (update_function : update_fn)
    (self : shared_state F) : py F (list update) :=
  fun layers =>
    (let params := iter_parameters layers in
     let param_vector := parameters2vector (get_value self) layers in
     let gradients := grad_wrt_params (get_value self) params in
     let full_gradient := concat (map flatten gradients) in
     let new_inv_hessian_ :=
       new_inv_hessian update_function self param_vector full_gradient in
     let param_delta := param_delta_of new_inv_hessian_ full_gradient in
     let layers_and_parameters := iter_layers_and_parameters layers in
     step ← line_search
              (phi (get_value self) param_vector param_delta layers_and_parameters)
              (derphi (get_value self) param_vector param_delta layers_and_parameters) ;
     let updated_params := T.vadd param_vector (T.vscale_l step param_delta) in
     let updates :=
       setup_parameter_updates (get_value self) params updated_params in
     mret (updates ++ [SetInvHessian new_inv_hessian_;
                       SetPrevParams param_vector;
                       SetPrevFullGradient full_gradient])) layers.

(** Running the compiled training function commits the updates, each
    computed from the old values. *)
Definition commit (st : shared_state F) (u : update) : shared_state F :=
  match u with
  | SetParameter parameter value =>
      SharedState
        (fun p => if Nat.eqb p parameter then value else get_value st p)
        (epoch st) (inv_hessian st) (prev_params st) (prev_full_gradient st)
  | SetInvHessian value =>
      SharedState (get_value st) (epoch st) value
                  (prev_params st) (prev_full_gradient st)
  | SetPrevParams value =>
      SharedState (get_value st) (epoch st) (inv_hessian st)
                  value (prev_full_gradient st)
  | SetPrevFullGradient value =>
      SharedState (get_value st) (epoch st) (inv_hessian st)
                  (prev_params st) value
  end.

Definition run_updates (updates : list update) (st : shared_state F)
    : shared_state F :=
  fold_left commit updates st.

(** Modelled from the spec: the part of [init_variables] that the base
    class does, of which this module reads the "epoch counter (starts
    at 1)". *)
Definition initial_epoch : Z := 1.

(** [init_variables]: the scaled identity and two zero vectors, next to
    the variables of the base class. *)
Definition init_variables (h0_scale : F) (values : nat -> tensor F)
    (layers : list (layer F)) : shared_state F :=
  let n_params :=
    list_sum (map (fun p => tensor_size (values p)) (iter_parameters layers)) in
  {| get_value := values;
     epoch := initial_epoch;
     inv_hessian := T.scale_l h0_scale (T.eye n_params);
     prev_params := T.zeros n_params;
     prev_full_gradient := T.zeros n_params |}.
End QuasiNewton.

(** ** Configuration *)

Section Configuration.
Context {F : Type} `{Scalar F}.

(** The [choices] of the [update_function] property, each function
    with the defaults of its keyword arguments. *)
Definition update_function_choices
    : list (string * (matrix F -> vector F -> vector F -> matrix F)) :=
  [ ("bfgs"%string, fun h s y => bfgs h s y default_maxrho);
    ("dfp"%string, fun h s y => dfp h s y default_maxnum);
    ("psb"%string, fun h s y => psb h s y);
    ("sr1"%string, fun h s y => sr1 h s y default_epsilon) ].

Definition choice {V} (choices : list (string * V)) (key : string) : option V :=
  snd <$> find (fun kv => String.eqb (fst kv) key) choices.

(** Modelled from the spec: [neupy.core.properties.ChoiceProperty],
    whose value must be "one of" the choices; an "unrecognized" name
    "fails eagerly at configuration time". *)
Definition ChoiceProperty_set {V} (choices : list (string * V)) (value : string)
    : result string :=
  match choice choices value with
  | Some _ => Ok value
  | None => Raise ValueError
  end.

(** Modelled from the spec: [neupy.core.properties.NumberProperty]
    with [minval]: a value below [minval] (a "negative [h0_scale]")
    "fails eagerly at configuration time".  The spec says nothing of a
    NaN, which is below nothing and passes here. *)
Definition NumberProperty_set (minval value : F) : result F :=
  if f_lt value minval then Raise ValueError else Ok value.

(** The two options of the optimiser, as configured. *)
Record QuasiNewton : Type := {
  update_function : string;
  h0_scale : F
}.

(** A keyword argument: the value given, or the default of the
    property. *)
Definition keyword {A} (given : option A) (default_value : A) : A :=
  match given with
  | Some value => value
  | None => default_value
  end.

(** Construction of the optimiser from the keyword arguments given;
    an argument left out takes the default of its property. *)
Definition QuasiNewton_init (update_function_arg : option string)
    (h0_scale_arg : option F) : result QuasiNewton :=
  match ChoiceProperty_set update_function_choices
          (keyword update_function_arg "bfgs"%string) with
  | Raise e => Raise e
  | Ok name =>
      match NumberProperty_set (asfloat 0) (keyword h0_scale_arg (asfloat 1)) with
      | Raise e => Raise e
      | Ok scale => Ok {| update_function := name; h0_scale := scale |}
      end
  end.
End Configuration.
Arguments QuasiNewton F : clear implicits.

(** ** Vocabulary of the properties *)

Section Vocabulary.
Context {F : Type} `{Scalar F}.

(** A sum over the indices below [n]. *)
Definition bigsum (n : nat) (f : nat -> F) : F := T.sum (map f (seq 0 n)).

(** An [n] by [n] matrix equal to its transpose. *)
Definition symmetric (n : nat) (M : matrix F) : Prop :=
  T.is_matrix n n M /\
  forall i j, i < n -> j < n -> T.mget M i j = T.mget M j i.

(** The BFGS formula as it is usually written, for a given [rho]:
    (I - rho s(x)y) H (I - rho y(x)s) + rho s(x)s. *)
Definition bfgs_formula (rho : F) (H_ : matrix F) (s y : vector F) : matrix F :=
  let I_ := T.eye (length H_) in
  T.add
    (T.dot_mm (T.dot_mm (T.sub I_ (T.scale_l rho (T.outer s y))) H_)
              (T.sub I_ (T.scale_l rho (T.outer y s))))
    (T.scale_l rho (T.outer s s)).

(** The quantities of the SR1 update: r = s - H y and r.y. *)
Definition sr1_residual (H_ : matrix F) (s y : vector F) : vector F :=
  T.vsub s (T.dot_mv H_ y).
Definition sr1_denominator (H_ : matrix F) (s y : vector F) : F :=
  T.dot (sr1_residual H_ s y) y.
End Vocabulary.

(** ** Vocabulary of the attribute store *)

Section StoreVocabulary.
Context {F : Type}.

(** The members of an object have distinct names. *)
Definition names_unique (l : layer F) : Prop := NoDup (map fst (members l)).

(** Every parameter of the layer is the value of one of its attributes. *)
Definition parameters_linked (l : layer F) : Prop :=
  forall p, In p (parameters l) -> find_param_name l p <> None.

Definition well_formed (layers : list (layer F)) : Prop :=
  Forall (fun l => names_unique l /\ parameters_linked l) layers.

(** An assignment [setattr(layer, name, value)], and its effect. *)
Definition write : Type := nat * string * pyobj F.

Definition apply_write (layers : list (layer F)) (w : write) : list (layer F) :=
  alter (set_member w.1.2 w.2) w.1.1 layers.

(** The layers with every attribute value replaced by a function of the
    layer, the name and the value; and the value an attribute holds
    after a list of assignments. *)
Definition map_members (f : string -> pyobj F -> pyobj F) (l : layer F) : layer F :=
  {| members := map (fun kv => (kv.1, f kv.1 kv.2)) (members l);
     parameters := parameters l |}.

Definition map_store (f : nat -> string -> pyobj F -> pyobj F)
    (layers : list (layer F)) : list (layer F) :=
  imap (fun i l => map_members (f i) l) layers.

Definition one_write (w : write) (i : nat) (k : string) (old : pyobj F) : pyobj F :=
  if Nat.eqb i w.1.1 && String.eqb k w.1.2 then w.2 else old.

Definition last_write (W : list write) (i : nat) (k : string) (old : pyobj F)
    : pyobj F :=
  fold_left (fun acc w => one_write w i k acc) W old.

(** The entries of [layers_and_parameters] with their attribute names,
    when every name was found. *)
Fixpoint resolve (lps : list (nat * option string * nat))
    : option (list (nat * string * nat)) :=
  match lps with
  | [] => Some []
  | (layer_, attrname, param) :: rest =>
      match attrname, resolve rest with
      | Some name, Some L => Some ((layer_, name, param) :: L)
      | _, _ => None
      end
  end.

(** The assignments of the two loops of [prediction]. *)
Fixpoint substitution_writes (values : nat -> tensor F)
    (updated_params : sym F (vector F)) (start_pos : nat)
    (L : list (nat * string * nat)) : list write :=
  match L with
  | [] => []
  | (layer_, name, param) :: rest =>
      let end_pos := start_pos + tensor_size (values param) in
      (layer_, name,
       Graph (fun t => reshape (slice (updated_params t) start_pos end_pos)
                               (values param)))
      :: substitution_writes values updated_params end_pos rest
  end.

Definition restoring_writes (L : list (nat * string * nat)) : list write :=
  map (fun lp => (lp.1.1, lp.1.2, Shared lp.2)) L.

Definition keys_bound (W : list write) (layers : list (layer F)) : Prop :=
  forall w l, In w W -> layers !! w.1.1 = Some l -> bound w.1.2 (members l) = true.
End StoreVocabulary.

(** ** A small network, for concrete runs

    One layer with a 1 by 2 weight and a bias, three scalar parameters in
    all; the line search probes [phi] and [derphi] once and returns the
    step 1. *)

Section Example.
Context {F : Type} `{Scalar F}.

Definition example_values : nat -> tensor F :=
  fun id =>
    match id with
    | 0 => {| shape := [1; 2]; data := [asfloat 1; asfloat 2] |}
    | _ => {| shape := [1]; data := [asfloat 3] |}
    end.

Definition example_layers : list (layer F) :=
  [ {| members := [("bias"%string, Shared 1); ("weight"%string, Shared 0)];
       parameters := [0; 1] |} ].

Definition example_attribute (t : F) (v : pyobj F) : tensor F :=
  match v with
  | Shared id => example_values id
  | Graph e => e t
  end.

(** The loss is the sum of the squared parameters, so its gradient is
    twice the parameters. *)
Definition example_network : Network F := {|
  Out := list (tensor F);
  connection_output := fun layers t =>
    concat (map (fun l => map (fun kv => example_attribute t kv.2) (members l))
                layers);
  error := fun output t =>
    T.sum (map (fun x => (x * x)%fl) (concat (map data (output t))));
  grad_wrt_step := fun error_func step t =>
    (error_func (t + asfloat 1)%fl - error_func t)%fl;
  grad_wrt_params := fun values params =>
    map (fun p => {| shape := shape (values p);
                     data := map (fun x => (asfloat 2 * x)%fl) (data (values p)) |})
        params;
  line_search := fun phi derphi =>
    _ ← phi (fun _ => asfloat 0) ; _ ← derphi (fun _ => asfloat 0) ;
    mret (asfloat 1)
|}.

(** The same network with a line search that returns the step 1
    without probing. *)
Definition example_network_unit_step : Network F := {|
  Out := @Out F example_network;
  connection_output := @connection_output F example_network;
  error := @error F example_network;
  grad_wrt_step := @grad_wrt_step F example_network;
  grad_wrt_params := @grad_wrt_params F example_network;
  line_search := fun _ _ => mret (asfloat 1)
|}.
End Example.
Arguments example_values F {_}.
Arguments example_layers F : clear implicits.
Arguments example_network F {_}.
Arguments example_network_unit_step F {_}.

(** ** Vocabulary of the step controller *)

Section ControllerVocabulary.
Context {F : Type} `{Scalar F} `{Network F}.

(** The state with other stored previous vectors. *)
Definition with_previous (self : shared_state F) (pp pg : vector F)
    : shared_state F :=
  SharedState (get_value self) (epoch self) (inv_hessian self) pp pg.

(** The parameter vector that a state holds. *)
Definition committed_vector (st : shared_state F) (layers : list (layer F))
    : vector F :=
  parameters2vector (get_value st) layers.

(** Every parameter tensor has as many entries as its shape says, and no
    shared variable is the parameter of two layers or twice of one. *)
Definition tensors_consistent (values : nat -> tensor F)
    (layers : list (layer F)) : Prop :=
  NoDup (iter_parameters layers) /\
  forall p, In p (iter_parameters layers) ->
            length (data (values p)) = tensor_size (values p).

(** The full gradient, as [init_train_updates] computes it. *)
Definition full_gradient_of (self : shared_state F) (layers : list (layer F))
    : vector F :=
  concat (map flatten (grad_wrt_params (get_value self) (iter_parameters layers))).

(** One epoch of training: the updates are computed and committed. *)
Definition train_epoch (update_function : update_fn) (self : shared_state F)
    : py F (shared_state F) :=
  updates ← init_train_updates update_function self ;
  mret (run_updates updates self).
End ControllerVocabulary.

(** ** Training on a configured optimiser *)

Section Training.
Context {F : Type} `{Scalar F} `{Network F}.

(** Modelled from the spec: training runs on a configured optimiser, so
    construction, with its validation, comes before the first
    iteration. *)
Definition QuasiNewton_train (update_function_arg : option string)
    (h0_scale_arg : option F) (values : nat -> tensor F)
    : py F (shared_state F) :=
  fun layers =>
    match QuasiNewton_init update_function_arg h0_scale_arg with
    | Raise e => Raise e
    | Ok optimizer =>
        match choice update_function_choices (update_function optimizer) with
        | Some f =>
            train_epoch f (init_variables (h0_scale optimizer) values layers) layers
        | None => Raise ValueError
        end
    end.
End Training.

(** ** States of the small network *)

Section ExampleRuns.
Context {F : Type} `{Scalar F}.

(** The first state of the example, and a state of a later epoch. *)
Definition example_state : shared_state F :=
  init_variables (asfloat 1) (example_values F) (example_layers F).

Definition example_state_later : shared_state F :=
  SharedState (example_values F) 2
    (T.scale_l (asfloat 1) (T.eye 3))
    [asfloat 0; asfloat 1; asfloat 1]
    [asfloat 1; asfloat 1; asfloat 1].

Definition default_bfgs : update_fn (F := F) :=
  fun h s y => bfgs h s y default_maxrho.
End ExampleRuns.
Arguments example_state F {_}.
Arguments example_state_later F {_}.
Arguments default_bfgs F {_}.

(** ** Further vocabulary *)

(** The laws of division in exact arithmetic. *)
Class ExactField (F : Type) `{Scalar F} `{!ExactRing F} : Prop := {
  exact_div_def : forall x y : F, (x / y)%fl = (x * (asfloat 1 / y))%fl;
  exact_inv_r : forall y : F, y <> asfloat 0 -> (y * (asfloat 1 / y))%fl = asfloat 1
}.

Section FurtherVocabulary.
Context {F : Type} `{Scalar F}.

(** An [n] by [n] matrix that is zero off its diagonal. *)
Definition diagonal (n : nat) (M : matrix F) : Prop :=
  T.is_matrix n n M /\
  forall i j, i < n -> j < n -> i <> j -> T.mget M i j = asfloat 0.
End FurtherVocabulary.

Section AttributeVocabulary.
Context {F : Type}.



End AttributeVocabulary.

(** ** Vocabulary of the binary64 runs *)

(** A number that is finite and not a negative zero, which is what an
    entry of a gradient is when nothing overflowed.  (The mantissa of a
    finite number is in range, as it is for every number the hardware
    holds.) *)
Definition regular (x : spec_float) : bool :=
  match x with
  | S754_finite _ m e => bounded B64.prec B64.emax m e
  | S754_zero s => negb s
  | _ => false
  end.

Definition gradient_regular (g : vector spec_float) : bool := forallb regular g.

(** The parameters of the small network with a first entry, 2^1023, so
    large that its gradient overflows. *)
Definition example_values_large : nat -> tensor spec_float :=
  fun id =>
    match id with
    | 0 => {| shape := [1; 2]; data := [B64.of_pow2 1 1023; B64.of_Z 2] |}
    | _ => {| shape := [1]; data := [B64.of_Z 3] |}
    end.

(** * Properties *)

(** ** The laws hold in the two instances *)

#[export] Instance real_exact : ExactRing R.
Proof.
  split; intros; unfold asfloat; cbn; ring.
Qed.

Lemma SFmul_comm (x y : spec_float) :
  SFmul B64.prec B64.emax x y = SFmul B64.prec B64.emax y x.
Proof.
  destruct x as [sx|sx| |sx mx ex], y as [sy|sy| |sy my ey]; cbn;
    rewrite ?(xorb_comm sx sy), ?(Pos.mul_comm mx my), ?(Z.add_comm ex ey);
    reflexivity.
Qed.

Lemma SFadd_comm (x y : spec_float) :
  SFadd B64.prec B64.emax x y = SFadd B64.prec B64.emax y x.
Proof.
  destruct x as [sx|sx| |sx mx ex], y as [sy|sy| |sy my ey]; cbn;
    try reflexivity; try (destruct sx, sy; reflexivity).
  rewrite (Z.min_comm ey ex).
  rewrite (Z.add_comm (cond_Zopp sy _)). reflexivity.
Qed.

#[export] Instance binary64_commutative : CommutativeOps spec_float.
Proof. split; [exact SFadd_comm | exact SFmul_comm]. Qed.

(** ** Shapes and entries of the tensor operators *)

Section TensorFacts.
Context {F : Type} `{Scalar F}.

Lemma nth_map_lt {A B} (f : A -> B) (l : list A) (i : nat) (d : A) (d' : B) :
  i < length l -> nth i (map f l) d' = f (nth i l d).
Proof.
  intros Hi. rewrite (nth_indep _ d' (f d)) by (rewrite length_map; exact Hi).
  apply map_nth.
Qed.

Lemma nth_zip_with_lt {A B C} (f : A -> B -> C) (x : list A) (y : list B)
    (i : nat) (da : A) (db : B) (dc : C) :
  i < length x -> i < length y ->
  nth i (zip_with f x y) dc = f (nth i x da) (nth i y db).
Proof.
  revert y i. induction x as [|a x IH]; intros [|b y] i Hx Hy;
    cbn in *; try lia.
  destruct i as [|i]; [reflexivity|]. apply IH; lia.
Qed.

Lemma nth_seq_lt (n i d : nat) : i < n -> nth i (seq 0 n) d = i.
Proof. intros Hi. rewrite seq_nth by exact Hi. reflexivity. Qed.

Lemma vget_map_seq (f : nat -> F) (n i : nat) :
  i < n -> T.vget (map f (seq 0 n)) i = f i.
Proof.
  intros Hi. unfold T.vget.
  rewrite (nth_map_lt f _ i 0%nat) by (rewrite length_seq; exact Hi).
  rewrite nth_seq_lt by exact Hi. reflexivity.
Qed.

Lemma list_as_map_seq (l : vector F) :
  l = map (T.vget l) (seq 0 (length l)).
Proof.
  apply (nth_ext _ _ (asfloat 0) (asfloat 0)).
  - rewrite length_map, length_seq. reflexivity.
  - intros i Hi. symmetry. apply vget_map_seq. exact Hi.
Qed.

Lemma zip_with_as_map_seq (f : F -> F -> F) (x y : vector F) (n : nat) :
  length x = n -> length y = n ->
  zip_with f x y = map (fun k => f (T.vget x k) (T.vget y k)) (seq 0 n).
Proof.
  intros Hx Hy. apply (nth_ext _ _ (asfloat 0) (asfloat 0)).
  - rewrite length_zip_with, length_map, length_seq. lia.
  - intros i Hi. rewrite length_zip_with in Hi.
    rewrite (nth_zip_with_lt f x y i (asfloat 0) (asfloat 0)) by lia.
    symmetry. apply vget_map_seq. lia.
Qed.

Lemma dot_as_bigsum (x y : vector F) (n : nat) :
  length x = n -> length y = n ->
  T.dot x y = bigsum n (fun k => (T.vget x k * T.vget y k)%fl).
Proof.
  intros Hx Hy. unfold T.dot, bigsum.
  rewrite (zip_with_as_map_seq f_mul x y n Hx Hy). reflexivity.
Qed.

Lemma bigsum_ext (n : nat) (f g : nat -> F) :
  (forall k, k < n -> f k = g k) -> bigsum n f = bigsum n g.
Proof.
  intros Hfg. unfold bigsum. f_equal. apply map_ext_in.
  intros k Hk. apply in_seq in Hk. apply Hfg. lia.
Qed.

(** Rows of a well-shaped matrix. *)
Lemma row_length (n m : nat) (M : matrix F) (i : nat) :
  T.is_matrix n m M -> i < n -> length (nth i M []) = m.
Proof.
  intros [Hn Hrows] Hi. rewrite Forall_forall in Hrows.
  apply Hrows. apply list_elem_of_In, nth_In. lia.
Qed.

Lemma is_matrix_eye (n : nat) : T.is_matrix n n (T.eye n).
Proof.
  split.
  - unfold T.eye. rewrite length_map, length_seq. reflexivity.
  - apply Forall_forall. intros row Hrow.
    apply list_elem_of_In, in_map_iff in Hrow. destruct Hrow as [i [<- _]].
    rewrite length_map, length_seq. reflexivity.
Qed.

Lemma is_matrix_outer (x y : vector F) :
  T.is_matrix (length x) (length y) (T.outer x y).
Proof.
  split.
  - unfold T.outer. rewrite length_map. reflexivity.
  - apply Forall_forall. intros row Hrow.
    apply list_elem_of_In, in_map_iff in Hrow. destruct Hrow as [xi [<- _]].
    rewrite length_map. reflexivity.
Qed.

Lemma is_matrix_map_m (f : F -> F) (n m : nat) (M : matrix F) :
  T.is_matrix n m M -> T.is_matrix n m (T.map_m f M).
Proof.
  intros [Hn Hrows]. split.
  - unfold T.map_m. rewrite length_map. exact Hn.
  - apply Forall_forall. intros row Hrow.
    apply list_elem_of_In, in_map_iff in Hrow. destruct Hrow as [r [<- Hr]].
    rewrite length_map. rewrite Forall_forall in Hrows.
    apply Hrows, list_elem_of_In, Hr.
Qed.

Lemma is_matrix_zip_m (f : F -> F -> F) (n m : nat) (A B : matrix F) :
  T.is_matrix n m A -> T.is_matrix n m B -> T.is_matrix n m (T.zip_m f A B).
Proof.
  intros HA HB. split.
  - unfold T.zip_m. rewrite length_zip_with.
    destruct HA as [-> _], HB as [-> _]. lia.
  - apply Forall_forall. intros row Hrow.
    apply list_elem_of_In, (In_nth _ _ []) in Hrow.
    destruct Hrow as [i [Hi <-]].
    unfold T.zip_m in *. rewrite length_zip_with in Hi.
    rewrite (nth_zip_with_lt _ A B i [] []) by lia.
    rewrite length_zip_with.
    rewrite (row_length n m A i HA), (row_length n m B i HB);
      destruct HA as [HA _], HB as [HB _]; lia.
Qed.

Lemma is_matrix_dot_mm (n : nat) (A B : matrix F) :
  T.is_matrix n n A -> T.is_matrix n n B -> T.is_matrix n n (T.dot_mm A B).
Proof.
  intros HA HB. split.
  - unfold T.dot_mm. rewrite length_map. apply HA.
  - apply Forall_forall. intros row Hrow.
    apply list_elem_of_In, in_map_iff in Hrow. destruct Hrow as [r [<- Hr]].
    rewrite length_map, length_seq. unfold T.ncols.
    destruct B as [|b B]; cbn.
    + destruct HB as [HB _]. cbn in HB. subst n.
      destruct HA as [HA _]. destruct A; [destruct Hr | discriminate].
    + destruct HB as [_ HB]. inversion HB; subst. reflexivity.
Qed.

Lemma mget_eye (n i j : nat) :
  i < n -> j < n ->
  T.mget (T.eye n) i j = if Nat.eqb i j then asfloat 1 else asfloat 0.
Proof.
  intros Hi Hj. unfold T.mget, T.eye.
  rewrite (nth_map_lt _ _ i 0%nat) by (rewrite length_seq; exact Hi).
  rewrite nth_seq_lt by exact Hi.
  apply (vget_map_seq (fun j => if Nat.eqb i j then asfloat 1 else asfloat 0)).
  exact Hj.
Qed.

Lemma mget_outer (x y : vector F) (i j : nat) :
  i < length x -> j < length y ->
  T.mget (T.outer x y) i j = (T.vget x i * T.vget y j)%fl.
Proof.
  intros Hi Hj. unfold T.mget, T.outer, T.vget.
  rewrite (nth_map_lt _ x i (asfloat 0)) by exact Hi.
  rewrite (nth_map_lt _ y j (asfloat 0)) by exact Hj. reflexivity.
Qed.

Lemma mget_map_m (f : F -> F) (n m : nat) (M : matrix F) (i j : nat) :
  T.is_matrix n m M -> i < n -> j < m ->
  T.mget (T.map_m f M) i j = f (T.mget M i j).
Proof.
  intros HM Hi Hj. unfold T.mget, T.map_m, T.vget.
  rewrite (nth_map_lt _ M i []) by (destruct HM as [-> _]; exact Hi).
  apply nth_map_lt. rewrite (row_length n m M i HM Hi). exact Hj.
Qed.

Lemma mget_zip_m (f : F -> F -> F) (n m : nat) (A B : matrix F) (i j : nat) :
  T.is_matrix n m A -> T.is_matrix n m B -> i < n -> j < m ->
  T.mget (T.zip_m f A B) i j = f (T.mget A i j) (T.mget B i j).
Proof.
  intros HA HB Hi Hj. unfold T.mget, T.zip_m, T.vget.
  rewrite (nth_zip_with_lt _ A B i [] [])
    by (destruct HA as [HA1 _], HB as [HB1 _]; lia).
  apply nth_zip_with_lt.
  - rewrite (row_length n m A i HA Hi). exact Hj.
  - rewrite (row_length n m B i HB Hi). exact Hj.
Qed.

Lemma vget_col (n m : nat) (M : matrix F) (j k : nat) :
  T.is_matrix n m M -> k < n -> T.vget (T.col M j) k = T.mget M k j.
Proof.
  intros HM Hk. unfold T.col, T.mget. unfold T.vget at 1.
  apply (nth_map_lt (fun row => T.vget row j) M k []).
  destruct HM as [-> _]. exact Hk.
Qed.

Lemma mget_dot_mm (n : nat) (A B : matrix F) (i j : nat) :
  T.is_matrix n n A -> T.is_matrix n n B -> i < n -> j < n ->
  T.mget (T.dot_mm A B) i j
  = bigsum n (fun k => (T.mget A i k * T.mget B k j)%fl).
Proof.
  intros HA HB Hi Hj. unfold T.mget at 1. unfold T.dot_mm.
  rewrite (nth_map_lt _ A i []) by (destruct HA as [-> _]; exact Hi).
  assert (Hc : T.ncols B = n).
  { unfold T.ncols. destruct B as [|b B].
    - destruct HB as [HB _]. cbn in HB. lia.
    - destruct HB as [_ HB]. inversion HB; subst. reflexivity. }
  rewrite Hc.
  rewrite (vget_map_seq (fun j => T.dot (nth i A []) (T.col B j))) by exact Hj.
  rewrite (dot_as_bigsum _ _ n).
  - apply bigsum_ext. intros k Hk.
    rewrite (vget_col n n B j k HB Hk). reflexivity.
  - apply (row_length n n A i HA Hi).
  - unfold T.col. rewrite length_map. apply HB.
Qed.

Lemma vget_dot_mv (n m : nat) (M : matrix F) (v : vector F) (i : nat) :
  T.is_matrix n m M -> length v = m -> i < n ->
  T.vget (T.dot_mv M v) i
  = bigsum m (fun k => (T.mget M i k * T.vget v k)%fl).
Proof.
  intros HM Hv Hi. unfold T.dot_mv. unfold T.vget at 1.
  rewrite (nth_map_lt _ M i []) by (destruct HM as [-> _]; exact Hi).
  apply dot_as_bigsum; [apply (row_length n m M i HM Hi) | exact Hv].
Qed.

Lemma vget_zip_with (f : F -> F -> F) (x y : vector F) (i : nat) :
  i < length x -> i < length y ->
  T.vget (zip_with f x y) i = f (T.vget x i) (T.vget y i).
Proof. apply nth_zip_with_lt. Qed.
End TensorFacts.

(** ** Sums in exact arithmetic *)

Section ExactSums.
Context {F : Type} `{ExactRing F}.

Add Ring exact_ring : exact_ring_theory.

Lemma fold_add_from (l : list F) (a : F) :
  fold_left f_add l a = (a + T.sum l)%fl.
Proof.
  unfold T.sum. revert a. induction l as [|x l IH]; intros a; cbn.
  - ring.
  - rewrite (IH (a + x)%fl), (IH (asfloat 0 + x)%fl). ring.
Qed.

Lemma bigsum_0 (f : nat -> F) : bigsum 0 f = asfloat 0.
Proof. reflexivity. Qed.

Lemma bigsum_S (n : nat) (f : nat -> F) :
  bigsum (S n) f = (bigsum n f + f n)%fl.
Proof.
  unfold bigsum, T.sum. rewrite seq_S, map_app, fold_left_app. reflexivity.
Qed.

Lemma bigsum_zero (n : nat) : bigsum n (fun _ => asfloat 0) = asfloat 0 :> F.
Proof.
  induction n as [|n IH]; [reflexivity|]. rewrite bigsum_S, IH. ring.
Qed.

Lemma bigsum_mul_r (n : nat) (f : nat -> F) (c : F) :
  (bigsum n f * c)%fl = bigsum n (fun k => (f k * c)%fl).
Proof.
  induction n as [|n IH].
  - rewrite !bigsum_0. ring.
  - rewrite !bigsum_S, <- IH. ring.
Qed.

Lemma bigsum_add (n : nat) (f g : nat -> F) :
  bigsum n (fun k => (f k + g k)%fl) = (bigsum n f + bigsum n g)%fl.
Proof.
  induction n as [|n IH].
  - rewrite !bigsum_0. ring.
  - rewrite !bigsum_S, IH. ring.
Qed.

Lemma bigsum_exchange (n m : nat) (f : nat -> nat -> F) :
  bigsum n (fun k => bigsum m (fun l => f k l))
  = bigsum m (fun l => bigsum n (fun k => f k l)).
Proof.
  induction n as [|n IH].
  - rewrite bigsum_0. symmetry.
    rewrite (bigsum_ext m _ (fun _ => asfloat 0)); [apply bigsum_zero|].
    intros l _. apply bigsum_0.
  - rewrite bigsum_S, IH, <- bigsum_add.
    apply bigsum_ext. intros l _. rewrite bigsum_S. reflexivity.
Qed.

(** The key identity behind the symmetry of BFGS: a congruence
    [A H A^T] of a symmetric [H] is symmetric. *)
Lemma congruence_symmetric (n : nat) (a h : nat -> nat -> F) (i j : nat) :
  (forall k l, k < n -> l < n -> h k l = h l k) ->
  bigsum n (fun k => (bigsum n (fun l => a i l * h l k) * a j k)%fl)
  = bigsum n (fun k => (bigsum n (fun l => a j l * h l k) * a i k)%fl).
Proof.
  intros Hh.
  rewrite (bigsum_ext n _
             (fun k => bigsum n (fun l => (a i l * h l k * a j k)%fl)))
    by (intros k _; apply bigsum_mul_r).
  rewrite bigsum_exchange.
  apply bigsum_ext. intros l Hl. rewrite bigsum_mul_r.
  apply bigsum_ext. intros k Hk. rewrite (Hh l k Hl Hk). ring.
Qed.
End ExactSums.

(** ** Symmetry of the updates *)

Create HintDb shapes discriminated.
#[export] Hint Resolve is_matrix_eye is_matrix_outer is_matrix_map_m
  is_matrix_zip_m is_matrix_dot_mm : shapes.

(** Unfold the named operators down to [map_m], [zip_m], [outer], [eye]
    and [dot_mm], then read the entries. *)
Ltac unfold_ops :=
  unfold T.sub, T.add, T.mul, T.scale_r, T.scale_l, T.div_s, T.clip in *.

Ltac shape := solve [ auto 8 with shapes | lia ].

Ltac entries n :=
  repeat first
    [ rewrite (mget_zip_m _ n n) by shape
    | rewrite (mget_map_m _ n n) by shape
    | rewrite mget_outer by lia
    | rewrite mget_eye by lia ].

Section Symmetry.
Context {F : Type} `{Scalar F}.

Lemma length_vsub (x y : vector F) (n : nat) :
  length x = n -> length y = n -> length (T.vsub x y) = n.
Proof. intros Hx Hy. unfold T.vsub. rewrite length_zip_with. lia. Qed.

Lemma length_dot_mv (M : matrix F) (v : vector F) :
  length (T.dot_mv M v) = length M.
Proof. unfold T.dot_mv. apply length_map. Qed.

Lemma is_matrix_outer_n (n : nat) (x y : vector F) :
  length x = n -> length y = n -> T.is_matrix n n (T.outer x y).
Proof. intros <- Hy. rewrite <- Hy at 2. apply is_matrix_outer. Qed.

(** PSB keeps a symmetric matrix symmetric as soon as addition and
    multiplication commute, so also in floating point. *)
Lemma psb_symmetric `{!CommutativeOps F} (n : nat) (H_ : matrix F) (s y : vector F) :
  symmetric n H_ -> length s = n -> length y = n ->
  symmetric n (psb H_ s y).
Proof.
  intros [HH Hsym] Hs Hy. unfold psb. cbv zeta.
  set (r := T.vsub s (T.dot_mv H_ y)).
  assert (Hr : length r = n).
  { apply length_vsub; [exact Hs|]. rewrite length_dot_mv. apply HH. }
  set (d := (asfloat 1 / T.dot y y)%fl).
  set (c := T.dot y r).
  pose proof (is_matrix_outer_n n r y Hr Hy) as Hry.
  pose proof (is_matrix_outer_n n y r Hy Hr) as Hyr.
  pose proof (is_matrix_outer_n n y y Hy Hy) as Hyy.
  unfold_ops. split; [shape|].
  intros i j Hi Hj. entries n.
  rewrite (Hsym i j Hi Hj).
  rewrite (f_mul_comm (T.vget r i) (T.vget y j)).
  rewrite (f_mul_comm (T.vget y i) (T.vget r j)).
  rewrite (f_add_comm (T.vget y j * T.vget r i)%fl).
  rewrite (f_mul_comm (T.vget y i) (T.vget y j)).
  reflexivity.
Qed.

(** So does SR1, on both of its paths. *)
Lemma sr1_symmetric `{!CommutativeOps F} (n : nat) (H_ : matrix F) (s y : vector F)
    (epsilon : F) :
  symmetric n H_ -> length s = n -> length y = n ->
  symmetric n (sr1 H_ s y epsilon).
Proof.
  intros [HH Hsym] Hs Hy. unfold sr1. cbv zeta.
  set (r := T.vsub s (T.dot_mv H_ y)).
  assert (Hr : length r = n).
  { apply length_vsub; [exact Hs|]. rewrite length_dot_mv. apply HH. }
  destruct (T.lt _ _); cbn; [split; assumption|].
  pose proof (is_matrix_outer_n n r r Hr Hr) as Hrr.
  unfold_ops. split; [shape|].
  intros i j Hi Hj. entries n.
  rewrite (Hsym i j Hi Hj), (f_mul_comm (T.vget r i) (T.vget r j)).
  reflexivity.
Qed.

(** The entries of [dfp]: the second term holds the product of
    (Hy)[i] y[j] with the single entry H[i][j]. *)
Lemma dfp_entry (n : nat) (H_ : matrix F) (s y : vector F) (maxnum : F)
    (i j : nat) :
  T.is_matrix n n H_ -> length s = n -> length y = n -> i < n -> j < n ->
  T.mget (dfp H_ s y maxnum) i j
  = (T.mget H_ i j + T.vget s i * T.vget s j / T.dot y s
     - T.clip1 (- maxnum) maxnum
         (T.vget (T.dot_mv H_ y) i * T.vget y j * T.mget H_ i j)
       / T.dot y (T.dot_mv H_ y))%fl.
Proof.
  intros HH Hs Hy Hi Hj. unfold dfp. cbv zeta.
  assert (Hq : length (T.dot_mv H_ y) = n) by (rewrite length_dot_mv; apply HH).
  pose proof (is_matrix_outer_n n s s Hs Hs) as Hss.
  pose proof (is_matrix_outer_n n (T.dot_mv H_ y) y Hq Hy) as Hqy.
  unfold_ops. entries n. reflexivity.
Qed.
End Symmetry.

Section SymmetryExact.
Context {F : Type} `{ExactRing F}.

Add Ring exact_ring_sym : exact_ring_theory.

(** BFGS keeps a symmetric matrix symmetric in exact arithmetic,
    whatever value [rho] takes. *)
Lemma bfgs_symmetric (n : nat) (H_ : matrix F) (s y : vector F) (maxrho : F) :
  symmetric n H_ -> length s = n -> length y = n ->
  symmetric n (bfgs H_ s y maxrho).
Proof.
  intros [HH Hsym] Hs Hy. unfold bfgs. cbv zeta.
  set (rho := T.ifelse _ _ _). clearbody rho.
  assert (Hn : length H_ = n) by apply HH. rewrite Hn.
  pose proof (is_matrix_outer_n n s y Hs Hy) as Hsy.
  pose proof (is_matrix_outer_n n y s Hy Hs) as Hys.
  pose proof (is_matrix_outer_n n s s Hs Hs) as Hss.
  set (A := T.sub (T.eye n) (T.scale_r (T.outer s y) rho)).
  set (B := T.sub (T.eye n) (T.scale_r (T.outer y s) rho)).
  assert (HA : T.is_matrix n n A) by (subst A; unfold_ops; shape).
  assert (HB : T.is_matrix n n B) by (subst B; unfold_ops; shape).
  assert (HAB : forall k j, k < n -> j < n -> T.mget B k j = T.mget A j k).
  { intros k j Hk Hj. subst A B. unfold_ops. entries n.
    rewrite (Nat.eqb_sym k j). ring. }
  unfold T.add, T.scale_l. split; [shape|].
  intros i j Hi Hj. entries n.
  rewrite !(mget_dot_mm n) by shape.
  rewrite (bigsum_ext n _
      (fun k => (bigsum n (fun l => T.mget A i l * T.mget H_ l k) * T.mget A j k)%fl))
    by (intros k Hk; rewrite (mget_dot_mm n), HAB by shape; reflexivity).
  symmetry.
  rewrite (bigsum_ext n _
      (fun k => (bigsum n (fun l => T.mget A j l * T.mget H_ l k) * T.mget A i k)%fl))
    by (intros k Hk; rewrite (mget_dot_mm n), HAB by shape; reflexivity).
  rewrite (congruence_symmetric n (T.mget A) (T.mget H_) j i Hsym). ring.
Qed.
End SymmetryExact.

(** ** The formula BFGS computes *)

Section BfgsFormula.
Context {F : Type} `{Scalar F} `{!CommutativeOps F}.

Lemma scale_r_scale_l (M : matrix F) (c : F) : T.scale_r M c = T.scale_l c M.
Proof.
  unfold T.scale_r, T.scale_l, T.map_m.
  apply map_ext. intros row. apply map_ext. intros e. apply f_mul_comm.
Qed.

(** [bfgs] is the BFGS formula at the [rho] that leaves the guard. *)
Lemma bfgs_unfold (H_ : matrix F) (s y : vector F) (maxrho : F) :
  bfgs H_ s y maxrho
  = bfgs_formula
      (let rho := (asfloat 1 / T.dot y s)%fl in
       T.ifelse (T.isinf rho) (maxrho * T.sgn rho)%fl rho) H_ s y.
Proof.
  unfold bfgs, bfgs_formula. cbv zeta. rewrite !scale_r_scale_l. reflexivity.
Qed.

(** C4. When rho = 1/(y.s) is finite (or just not infinite: the guard
    tests [isinf]), [bfgs] returns exactly
    (I - rho s(x)y) H (I - rho y(x)s) + rho s(x)s, with I the identity
    of the size of H. *)
Theorem bfgs_formula_when_rho_finite (H_ : matrix F) (s y : vector F) (maxrho : F) :
  T.isinf (asfloat 1 / T.dot y s)%fl = false ->
  bfgs H_ s y maxrho = bfgs_formula (asfloat 1 / T.dot y s)%fl H_ s y.
Proof.
  intros Hfin. rewrite bfgs_unfold. cbv zeta. rewrite Hfin. reflexivity.
Qed.
End BfgsFormula.

Lemma bfgs_formula_when_rho_finite_witness :
  bfgs [[B64.of_Z 1; B64.of_Z 0]; [B64.of_Z 0; B64.of_Z 1]]
       [B64.of_Z 1; B64.of_Z 0] [B64.of_Z 1; B64.of_Z 1] default_maxrho
  = bfgs_formula (asfloat 1 / T.dot [B64.of_Z 1; B64.of_Z 1] [B64.of_Z 1; B64.of_Z 0])%fl
      [[B64.of_Z 1; B64.of_Z 0]; [B64.of_Z 0; B64.of_Z 1]]
      [B64.of_Z 1; B64.of_Z 0] [B64.of_Z 1; B64.of_Z 1].
Proof.
  apply (bfgs_formula_when_rho_finite (F := spec_float)). vm_compute. reflexivity.
Defined.

(** ** The two paths of SR1 *)

Section Sr1Paths.
Context {F : Type} `{Scalar F}.

(** C3. With r = s - H y and denom = r.y: if |denom| < epsilon |r| |y|
    then [sr1] returns H itself, and otherwise it returns
    H + (r(x)r)/denom, whose entry (i, j) is H[i][j] + r[i] r[j] / denom. *)
Theorem sr1_skips_or_updates (H_ : matrix F) (s y : vector F) (epsilon : F) :
  let r := sr1_residual H_ s y in
  let denom := sr1_denominator H_ s y in
  let skip := T.lt (T.abs_ denom) (epsilon * T.norm2 r * T.norm2 y)%fl in
  (skip = true -> sr1 H_ s y epsilon = H_) /\
  (skip = false ->
     sr1 H_ s y epsilon = T.add H_ (T.div_s (T.outer r r) denom)) /\
  (skip = false ->
     forall n i j,
       T.is_matrix n n H_ -> length s = n -> length y = n -> i < n -> j < n ->
       T.mget (sr1 H_ s y epsilon) i j
       = (T.mget H_ i j + T.vget r i * T.vget r j / denom)%fl).
Proof.
  intros r denom skip. subst skip denom r.
  unfold sr1, sr1_denominator, sr1_residual. cbv zeta.
  set (r := T.vsub s (T.dot_mv H_ y)).
  repeat split; intros ->; cbn [T.ifelse]; try reflexivity.
  intros n i j HH Hs Hy Hi Hj.
  assert (Hr : length r = n).
  { apply length_vsub; [exact Hs|]. rewrite length_dot_mv. apply HH. }
  pose proof (is_matrix_outer_n n r r Hr Hr) as Hrr.
  unfold_ops. entries n. reflexivity.
Qed.
End Sr1Paths.

Lemma sr1_skips_or_updates_witness :
  sr1 [[B64.of_Z 1; B64.of_Z 0]; [B64.of_Z 0; B64.of_Z 1]]
      [B64.of_Z 1; B64.of_Z 1] [B64.of_Z 1; B64.of_Z 0] default_epsilon
  = [[B64.of_Z 1; B64.of_Z 0]; [B64.of_Z 0; B64.of_Z 1]]
  /\ T.mget (sr1 [[B64.of_Z 1; B64.of_Z 0]; [B64.of_Z 0; B64.of_Z 1]]
                 [B64.of_Z 2; B64.of_Z 1] [B64.of_Z 1; B64.of_Z 0] default_epsilon)
            0 1
     = B64.of_Z 1.
Proof.
  split.
  - apply (sr1_skips_or_updates (F := spec_float)). vm_compute. reflexivity.
  - destruct (sr1_skips_or_updates (F := spec_float)
                [[B64.of_Z 1; B64.of_Z 0]; [B64.of_Z 0; B64.of_Z 1]]
                [B64.of_Z 2; B64.of_Z 1] [B64.of_Z 1; B64.of_Z 0] default_epsilon)
      as (_ & _ & Hentry).
    rewrite (Hentry ltac:(vm_compute; reflexivity) 2 0 1);
      [vm_compute; reflexivity | repeat constructor | reflexivity | reflexivity
      | lia | lia].
Defined.

(** ** The updates on binary64 numbers *)

Lemma SFltb_irrefl (x : spec_float) : SFltb x x = false.
Proof.
  unfold SFltb, SFcompare.
  destruct x as [[|]|[|]| |[|] m e]; try reflexivity;
    rewrite Z.compare_refl; change (Pos.compare_cont Eq m m) with (Pos.compare m m);
    rewrite Pos.compare_refl; reflexivity.
Qed.

(** A clipped value is not below the lower bound and not above the
    upper one (a NaN is clipped to itself, and is neither). *)
Lemma clip1_within (lo hi x : spec_float) :
  SFltb hi lo = false ->
  SFltb (T.clip1 lo hi x) lo = false /\ SFltb hi (T.clip1 lo hi x) = false.
Proof.
  intros Hord. unfold T.clip1. cbn [f_lt binary64].
  destruct (SFltb x lo) eqn:Hlo.
  - split; [apply SFltb_irrefl | exact Hord].
  - destruct (SFltb hi x) eqn:Hhi.
    + split; [exact Hord | apply SFltb_irrefl].
    + split; assumption.
Qed.

(** An infinite rho leaves the guard of [bfgs] as plus or minus
    [maxrho], here the default 1e4. *)
Lemma guarded_rho_default (rho : spec_float) :
  B64.isinf rho = true ->
  (default_maxrho * T.sgn rho)%fl
  = (if SFltb rho (B64.of_Z 0) then B64.of_Z (-10000) else B64.of_Z 10000).
Proof.
  destruct rho as [?|[|]| |? ? ?]; try discriminate; intros _; vm_compute; reflexivity.
Qed.

Lemma div_one_zero (sg : bool) :
  (asfloat 1 / S754_zero sg)%fl = S754_infinity sg.
Proof. destruct sg; vm_compute; reflexivity. Qed.

(** C1, at the input where it fails.  [dfp] multiplies Hy(x)y and H
    entry by entry: from the symmetric H = [[1, 1], [1, 1]] with
    s = [1, 0] and y = [1, 3] it returns [[7/4, 1/4], [3/4, 1/4]],
    which is not symmetric. *)
Theorem dfp_breaks_symmetry :
  let H_ := [[B64.of_Z 1; B64.of_Z 1]; [B64.of_Z 1; B64.of_Z 1]] in
  let s := [B64.of_Z 1; B64.of_Z 0] in
  let y := [B64.of_Z 1; B64.of_Z 3] in
  symmetric 2 H_ /\
  dfp H_ s y default_maxnum
  = [[B64.of_pow2 7 (-2); B64.of_pow2 1 (-2)];
     [B64.of_pow2 3 (-2); B64.of_pow2 1 (-2)]] /\
  ~ symmetric 2 (dfp H_ s y default_maxnum).
Proof.
  cbv zeta. split; [|split].
  - split; [repeat constructor|].
    intros [|[|i]] [|[|j]] Hi Hj; try lia; reflexivity.
  - vm_compute. reflexivity.
  - intros [_ Hsym]. specialize (Hsym 0 1 ltac:(lia) ltac:(lia)).
    vm_compute in Hsym. discriminate Hsym.
Qed.

(** The same input in exact arithmetic: the two entries are 1/4 and
    3/4. *)
Lemma clip1_real_inside (lo hi x : R) :
  (lo <= x)%R -> (x <= hi)%R -> T.clip1 lo hi x = x.
Proof.
  intros Hlo Hhi. unfold T.clip1. cbn [f_lt real]. unfold Real.lt.
  destruct (Rlt_dec x lo); [lra|]. destruct (Rlt_dec hi x); [lra|]. reflexivity.
Qed.

Lemma dfp_breaks_symmetry_in_exact_arithmetic :
  let H_ := [[1; 1]; [1; 1]]%R in
  let s := [1; 0]%R in
  let y := [1; 3]%R in
  T.mget (dfp H_ s y default_maxnum) 0 1 = (1 / 4)%R /\
  T.mget (dfp H_ s y default_maxnum) 1 0 = (3 / 4)%R.
Proof.
  cbv zeta. unfold dfp, default_maxnum, asfloat. cbn.
  rewrite !clip1_real_inside by lra. split; field.
Qed.

(** The guard of [bfgs], shared by the two statements below: an infinite
    rho is replaced by [default_maxrho * sgn rho], which is 1e4 or -1e4. *)
Lemma bfgs_guard (H_ : matrix spec_float) (s y : vector spec_float) :
  B64.isinf (asfloat 1 / T.dot y s)%fl = true ->
  let guarded := (default_maxrho * T.sgn (asfloat 1 / T.dot y s))%fl in
  (guarded = B64.of_Z 10000 \/ guarded = B64.of_Z (-10000)) /\
  B64.is_finite guarded = true /\
  bfgs H_ s y default_maxrho = bfgs_formula guarded H_ s y.
Proof.
  intros Hinf guarded. subst guarded.
  rewrite bfgs_unfold. cbv zeta.
  change (T.isinf (asfloat 1 / T.dot y s)%fl)
    with (B64.isinf (asfloat 1 / T.dot y s)%fl).
  rewrite Hinf. cbn [T.ifelse].
  rewrite (guarded_rho_default _ Hinf).
  destruct (SFltb _ _); repeat split; auto.
Qed.

(** C2, as amended.  When rho = 1/(y.s) is infinite, and so whenever y.s
    is a zero, [bfgs] replaces it by sign(rho) * maxrho before it is
    used, sign(rho) being 1 or -1: with the default maxrho the update is
    the BFGS formula at 1e4 or at -1e4, a finite rho. *)
Theorem bfgs_infinite_rho_replaced (H_ : matrix spec_float) (s y : vector spec_float) :
  let rho := (asfloat 1 / T.dot y s)%fl in
  (B64.isinf rho = true ->
   (T.sgn rho = B64.of_Z 1 \/ T.sgn rho = B64.of_Z (-1)) /\
   (forall maxrho,
      bfgs H_ s y maxrho = bfgs_formula (maxrho * T.sgn rho)%fl H_ s y) /\
   let guarded := (default_maxrho * T.sgn rho)%fl in
   (guarded = B64.of_Z 10000 \/ guarded = B64.of_Z (-10000)) /\
   B64.is_finite guarded = true /\
   bfgs H_ s y default_maxrho = bfgs_formula guarded H_ s y) /\
  (forall sg, T.dot y s = S754_zero sg -> B64.isinf rho = true).
Proof.
  cbv zeta. split.
  - intros Hinf. split; [|split].
    + destruct (asfloat 1 / T.dot y s)%fl as [?|[|]| |? ? ?];
        try discriminate Hinf; [right | left]; reflexivity.
    + intros maxrho. rewrite bfgs_unfold. cbv zeta.
      change (T.isinf (asfloat 1 / T.dot y s)%fl)
        with (B64.isinf (asfloat 1 / T.dot y s)%fl).
      rewrite Hinf. reflexivity.
    + apply bfgs_guard, Hinf.
  - intros sg ->. rewrite div_one_zero. reflexivity.
Qed.

Lemma bfgs_infinite_rho_replaced_witness :
  bfgs [[B64.of_Z 1; B64.of_Z 0]; [B64.of_Z 0; B64.of_Z 1]]
       [B64.of_Z 1; B64.of_Z 0] [B64.of_Z 0; B64.of_Z 1] default_maxrho
  = bfgs_formula (B64.of_Z 10000)
       [[B64.of_Z 1; B64.of_Z 0]; [B64.of_Z 0; B64.of_Z 1]]
       [B64.of_Z 1; B64.of_Z 0] [B64.of_Z 0; B64.of_Z 1].
Proof.
  destruct (bfgs_infinite_rho_replaced
              [[B64.of_Z 1; B64.of_Z 0]; [B64.of_Z 0; B64.of_Z 1]]
              [B64.of_Z 1; B64.of_Z 0] [B64.of_Z 0; B64.of_Z 1]) as [Hguard Hzero].
  destruct (Hguard (Hzero false ltac:(vm_compute; reflexivity)))
    as (_ & _ & _ & _ & Heq).
  exact Heq.
Defined.

(** C2, as stated, fails: all inputs are finite and y.s is exactly zero,
    so rho is infinite and is replaced by 1e4, but s(x)y overflows and
    the returned matrix holds NaN and an infinity. *)
Lemma bfgs_guarded_result_not_finite :
  let H_ := [[B64.of_Z 1; B64.of_Z 0]; [B64.of_Z 0; B64.of_Z 1]] in
  let s := [B64.of_pow2 1 600; B64.of_Z 0] in
  let y := [B64.of_Z 0; B64.of_pow2 1 600] in
  B64.all_finite H_ = true /\ B64.vector_finite s = true /\
  B64.vector_finite y = true /\
  T.dot y s = S754_zero false /\
  B64.is_finite (asfloat 1 / T.dot y s)%fl = false /\
  bfgs H_ s y default_maxrho
  = [[S754_nan; S754_nan]; [S754_infinity true; B64.of_Z 1]] /\
  B64.all_finite (bfgs H_ s y default_maxrho) = false.
Proof. cbv zeta. repeat split; vm_compute; reflexivity. Qed.

(** The defaults of the keyword arguments, as binary64 numbers. *)
Lemma default_values_binary64 :
  default_maxrho = B64.of_Z 10000 /\
  default_maxnum = B64.of_Z 100000 /\
  default_epsilon = S754_finite false 6044629098073146 (-79).
Proof. repeat split; vm_compute; reflexivity. Qed.

(** In binary64, BFGS keeps symmetry only up to rounding: from
    H = [[2, 1], [1, 3]], s = [1, 2] and y = [1, 1], where rho = 1/3 is
    rounded, the two off-diagonal entries differ in their last bits
    (with the sums taken left to right; another order of summation
    gives other last bits). *)
Lemma bfgs_symmetric_up_to_rounding :
  let H_ := [[B64.of_Z 2; B64.of_Z 1]; [B64.of_Z 1; B64.of_Z 3]] in
  let s := [B64.of_Z 1; B64.of_Z 2] in
  let y := [B64.of_Z 1; B64.of_Z 1] in
  T.mget (bfgs H_ s y default_maxrho) 0 1
  = S754_finite true 8006399337547560 (-56) /\
  T.mget (bfgs H_ s y default_maxrho) 1 0
  = S754_finite true 8006399337547552 (-56).
Proof. cbv zeta. split; vm_compute; reflexivity. Qed.

(** A rho that is NaN passes the guard unchanged: the test is [isinf]. *)
Lemma bfgs_nan_rho_kept :
  let H_ := [[B64.of_Z 1; B64.of_Z 0]; [B64.of_Z 0; B64.of_Z 1]] in
  let s := [B64.of_pow2 1 600; B64.of_pow2 (-1) 600] in
  let y := [B64.of_pow2 1 600; B64.of_pow2 1 600] in
  B64.vector_finite s = true /\ B64.vector_finite y = true /\
  (asfloat 1 / T.dot y s)%fl = S754_nan /\
  bfgs H_ s y default_maxrho = [[S754_nan; S754_nan]; [S754_nan; S754_nan]].
Proof. cbv zeta. repeat split; vm_compute; reflexivity. Qed.

(** C7, as amended.  For an n by n matrix H and vectors s and y of
    length n, the guards inside the update functions are these: [bfgs]
    replaces an infinite rho by plus or minus maxrho; [dfp] clips each
    entry of Hy(x)y * H to [-maxnum, maxnum] and then divides, by y.s
    and by y.Hy, as they are; [sr1] returns H when
    |r.y| < epsilon |r| |y|. *)
Theorem curvature_guards (n : nat) (H_ : matrix spec_float)
    (s y : vector spec_float) :
  T.is_matrix n n H_ -> length s = n -> length y = n ->
  (B64.isinf (asfloat 1 / T.dot y s)%fl = true ->
   B64.is_finite (default_maxrho * T.sgn (asfloat 1 / T.dot y s))%fl = true /\
   bfgs H_ s y default_maxrho
   = bfgs_formula (default_maxrho * T.sgn (asfloat 1 / T.dot y s))%fl H_ s y) /\
  (let clipped :=
     T.clip (T.mul (T.outer (T.dot_mv H_ y) y) H_)
            (- default_maxnum)%fl default_maxnum in
   dfp H_ s y default_maxnum
   = T.sub (T.add H_ (T.div_s (T.outer s s) (T.dot y s)))
           (T.div_s clipped (T.dot y (T.dot_mv H_ y))) /\
   Forall (Forall (fun e => SFltb e (- default_maxnum)%fl = false /\
                            SFltb default_maxnum e = false)) clipped) /\
  (T.lt (T.abs_ (sr1_denominator H_ s y))
        (default_epsilon * T.norm2 (sr1_residual H_ s y) * T.norm2 y)%fl = true ->
   sr1 H_ s y default_epsilon = H_).
Proof.
  intros _ _ _. split; [|split].
  - intros Hinf. destruct (bfgs_guard H_ s y Hinf) as (_ & Hfin & Heq).
    split; assumption.
  - cbv zeta. split; [reflexivity|].
    unfold T.clip, T.map_m.
    apply Forall_map, Forall_forall. intros row _.
    apply Forall_map, Forall_forall. intros e _.
    apply clip1_within. vm_compute. reflexivity.
  - unfold sr1, sr1_denominator, sr1_residual. cbv zeta.
    intros ->. reflexivity.
Qed.

Lemma curvature_guards_witness :
  bfgs [[B64.of_Z 1; B64.of_Z 0]; [B64.of_Z 0; B64.of_Z 1]]
       [B64.of_Z 1; B64.of_Z 0] [B64.of_Z 0; B64.of_Z 1] default_maxrho
  = bfgs_formula (default_maxrho * T.sgn (S754_infinity false))%fl
       [[B64.of_Z 1; B64.of_Z 0]; [B64.of_Z 0; B64.of_Z 1]]
       [B64.of_Z 1; B64.of_Z 0] [B64.of_Z 0; B64.of_Z 1]
  /\ sr1 [[B64.of_Z 1; B64.of_Z 0]; [B64.of_Z 0; B64.of_Z 1]]
         [B64.of_Z 1; B64.of_Z 1] [B64.of_Z 1; B64.of_Z 0] default_epsilon
     = [[B64.of_Z 1; B64.of_Z 0]; [B64.of_Z 0; B64.of_Z 1]].
Proof.
  split.
  - destruct (curvature_guards 2
                [[B64.of_Z 1; B64.of_Z 0]; [B64.of_Z 0; B64.of_Z 1]]
                [B64.of_Z 1; B64.of_Z 0] [B64.of_Z 0; B64.of_Z 1]
                ltac:(split; [reflexivity | repeat constructor])
                eq_refl eq_refl) as (Hb & _ & _).
    destruct (Hb ltac:(vm_compute; reflexivity)) as [_ Heq]. exact Heq.
  - destruct (curvature_guards 2
                [[B64.of_Z 1; B64.of_Z 0]; [B64.of_Z 0; B64.of_Z 1]]
                [B64.of_Z 1; B64.of_Z 1] [B64.of_Z 1; B64.of_Z 0]
                ltac:(split; [reflexivity | repeat constructor])
                eq_refl eq_refl) as (_ & _ & Hs).
    apply Hs. vm_compute. reflexivity.
Defined.

(** C7, as stated, fails: with H the identity, s = [1, 0] and y = [0, 1]
    the curvature y.s is exactly zero, [dfp] divides s(x)s by it, and the
    result holds an infinity and NaN. *)
Lemma dfp_division_unguarded :
  let H_ := [[B64.of_Z 1; B64.of_Z 0]; [B64.of_Z 0; B64.of_Z 1]] in
  let s := [B64.of_Z 1; B64.of_Z 0] in
  let y := [B64.of_Z 0; B64.of_Z 1] in
  T.dot y s = S754_zero false /\
  T.dot y (T.dot_mv H_ y) = B64.of_Z 1 /\
  dfp H_ s y default_maxnum
  = [[S754_infinity false; S754_nan]; [S754_nan; S754_nan]] /\
  B64.all_finite (dfp H_ s y default_maxnum) = false.
Proof. cbv zeta. repeat split; vm_compute; reflexivity. Qed.

(** The other unguarded divisions.  [sr1] tests with a strict [<]: when
    the residual r is zero both sides of the test are zero, the update is
    not skipped, and r(x)r is divided by zero.  [psb] divides by y.y and
    [dfp] by y.Hy, which are zero when the gradient did not change. *)
Lemma sr1_zero_residual_not_skipped :
  let H_ := [[B64.of_Z 1; B64.of_Z 0]; [B64.of_Z 0; B64.of_Z 1]] in
  let s := [B64.of_Z 1; B64.of_Z 0] in
  let y := [B64.of_Z 1; B64.of_Z 0] in
  sr1_residual H_ s y = [B64.of_Z 0; B64.of_Z 0] /\
  sr1 H_ s y default_epsilon = [[S754_nan; S754_nan]; [S754_nan; S754_nan]].
Proof. cbv zeta. split; vm_compute; reflexivity. Qed.

Lemma unchanged_gradient_not_guarded :
  let H_ := [[B64.of_Z 1; B64.of_Z 0]; [B64.of_Z 0; B64.of_Z 1]] in
  let s := [B64.of_Z 1; B64.of_Z 0] in
  let y := [B64.of_Z 0; B64.of_Z 0] in
  B64.all_finite (psb H_ s y) = false /\
  B64.all_finite (dfp H_ s y default_maxnum) = false /\
  B64.all_finite (sr1 H_ s y default_epsilon) = false.
Proof. cbv zeta. repeat split; vm_compute; reflexivity. Qed.

(** ** Trial evaluation: [prediction], [phi] and [derphi] *)

Section Store.
Context {F : Type}.
Implicit Types (l : layer F) (layers : list (layer F)) (w : @write F).

Lemma layer_eta l : {| members := members l; parameters := parameters l |} = l.
Proof. destruct l; reflexivity. Qed.

Lemma bound_map_members (f : string -> pyobj F -> pyobj F) (k : string) l :
  bound k (members (map_members f l)) = bound k (members l).
Proof.
  unfold bound, map_members. cbn. induction (members l) as [|kv ms IH]; cbn.
  - reflexivity.
  - rewrite IH. reflexivity.
Qed.

Lemma set_member_bound (k : string) (v : pyobj F) l :
  bound k (members l) = true ->
  set_member k v l = map_members (fun k' old => if String.eqb k' k then v else old) l.
Proof.
  intros Hb. unfold set_member, map_members. rewrite Hb. f_equal.
  unfold rebind. apply map_ext. intros [k' old]. cbn.
  destruct (String.eqb k' k); reflexivity.
Qed.

Lemma map_members_id (f : string -> pyobj F -> pyobj F) l :
  (forall kv, In kv (members l) -> f kv.1 kv.2 = kv.2) -> map_members f l = l.
Proof.
  intros Hf. unfold map_members. rewrite <- (layer_eta l) at 3. f_equal.
  rewrite <- (map_id (members l)) at 2. apply map_ext_in.
  intros [k v] Hin. cbn. f_equal. apply (Hf (k, v) Hin).
Qed.

Lemma map_members_compose (f g : string -> pyobj F -> pyobj F) l :
  map_members f (map_members g l) = map_members (fun k old => f k (g k old)) l.
Proof.
  unfold map_members. cbn. f_equal. rewrite map_map. reflexivity.
Qed.

Lemma apply_write_as_map w layers :
  (forall l, layers !! w.1.1 = Some l -> bound w.1.2 (members l) = true) ->
  apply_write layers w = map_store (one_write w) layers.
Proof.
  intros Hb. unfold apply_write, map_store. apply list_eq. intros i.
  rewrite list_lookup_imap.
  destruct (decide (i = w.1.1)) as [->|Hne].
  - rewrite list_lookup_alter_eq.
    destruct (layers !! w.1.1) as [l|] eqn:Hl; cbn; [|reflexivity].
    f_equal. rewrite (set_member_bound _ _ _ (Hb l eq_refl)).
    unfold map_members. f_equal. apply map_ext. intros [k old]. cbn.
    unfold one_write. rewrite Nat.eqb_refl. reflexivity.
  - rewrite list_lookup_alter_ne by congruence.
    destruct (layers !! i) as [l|] eqn:Hl; cbn; [|reflexivity].
    f_equal. symmetry. apply map_members_id. intros kv _.
    unfold one_write. apply Nat.eqb_neq in Hne. rewrite Hne. reflexivity.
Qed.

Lemma map_store_compose (f g : nat -> string -> pyobj F -> pyobj F) layers :
  map_store f (map_store g layers)
  = map_store (fun i k old => f i k (g i k old)) layers.
Proof.
  unfold map_store. apply list_eq. intros i.
  rewrite !list_lookup_imap. destruct (layers !! i) as [l|]; cbn; [|reflexivity].
  rewrite map_members_compose. reflexivity.
Qed.

Lemma map_store_id (f : nat -> string -> pyobj F -> pyobj F) layers :
  (forall i l kv, layers !! i = Some l -> In kv (members l) -> f i kv.1 kv.2 = kv.2) ->
  map_store f layers = layers.
Proof.
  intros Hf. unfold map_store. apply list_eq. intros i.
  rewrite list_lookup_imap. destruct (layers !! i) as [l|] eqn:Hl; cbn; [|reflexivity].
  f_equal. apply map_members_id. intros kv Hkv. apply (Hf i l kv Hl Hkv).
Qed.

Lemma keys_bound_map_store (f : nat -> string -> pyobj F -> pyobj F) W layers :
  keys_bound W layers -> keys_bound W (map_store f layers).
Proof.
  intros Hb w l Hw Hl. unfold map_store in Hl. rewrite list_lookup_imap in Hl.
  destruct (layers !! w.1.1) as [l0|] eqn:Hl0; cbn in Hl; [|discriminate].
  injection Hl as <-. rewrite bound_map_members. apply (Hb w l0 Hw Hl0).
Qed.

Lemma apply_writes_as_map W layers :
  keys_bound W layers ->
  fold_left apply_write W layers = map_store (last_write W) layers.
Proof.
  revert layers. induction W as [|w W IH]; intros layers Hb; cbn.
  - symmetry. apply map_store_id. reflexivity.
  - rewrite apply_write_as_map by (intros l Hl; apply (Hb w l); [left; reflexivity | exact Hl]).
    rewrite IH.
    + rewrite map_store_compose. reflexivity.
    + apply keys_bound_map_store. intros w' l Hw'. apply Hb. right. exact Hw'.
Qed.

Lemma last_write_cons (w : @write F) W (i : nat) (k : string) (old : pyobj F) :
  last_write (w :: W) i k old = last_write W i k (one_write w i k old).
Proof. reflexivity. Qed.

Lemma last_write_cases (W : list (@write F)) (i : nat) (k : string) (old : pyobj F) :
  (exists w, In w W /\ w.1.1 = i /\ w.1.2 = k /\ last_write W i k old = w.2) \/
  ((forall w, In w W -> ~ (w.1.1 = i /\ w.1.2 = k)) /\ last_write W i k old = old).
Proof.
  revert old. induction W as [|w W IH]; intros old.
  - right. split; [intros ? []|reflexivity].
  - rewrite last_write_cons.
    destruct (IH (one_write w i k old)) as [(w' & Hin & Hi & Hk & Heq)|[Hno Heq]].
    + left. exists w'. split; [right; exact Hin|]. repeat split; auto.
    + rewrite Heq. unfold one_write.
      destruct (Nat.eqb_spec i w.1.1) as [Hi|Hi];
        [destruct (String.eqb_spec k w.1.2) as [Hk|Hk]|]; cbn.
      * left. exists w. split; [left; reflexivity|]. repeat split; auto.
      * right. split; [|reflexivity].
        intros w0 [<-|Hin] [Hi0 Hk0]; [congruence | apply (Hno w0 Hin); auto].
      * right. split; [|reflexivity].
        intros w0 [<-|Hin] [Hi0 Hk0]; [congruence | apply (Hno w0 Hin); auto].
Qed.

Lemma last_write_app (W1 W2 : list (@write F)) (i : nat) (k : string) (old : pyobj F) :
  last_write (W1 ++ W2) i k old = last_write W2 i k (last_write W1 i k old).
Proof. unfold last_write. apply fold_left_app. Qed.

(** What [find_param_name] finds. *)
Lemma first_member_with_In (ms : list (string * pyobj F)) (p : nat) (k : string) :
  first_member_with ms p = Some k -> In (k, Shared p) ms.
Proof.
  induction ms as [|[k' v] ms IH]; cbn; [discriminate|].
  destruct v as [q|e]; cbn.
  - destruct (Nat.eqb_spec q p) as [->|Hne].
    + intros [= ->]. left. reflexivity.
    + intros Hk. right. apply IH, Hk.
  - intros Hk. right. apply IH, Hk.
Qed.

Lemma In_bound (ms : list (string * pyobj F)) (k : string) (v : pyobj F) :
  In (k, v) ms -> bound k ms = true.
Proof.
  intros Hin. unfold bound. apply existsb_exists. exists (k, v).
  split; [exact Hin | apply String.eqb_refl].
Qed.

Lemma unique_binding (ms : list (string * pyobj F)) (k : string) (v1 v2 : pyobj F) :
  NoDup (map fst ms) -> In (k, v1) ms -> In (k, v2) ms -> v1 = v2.
Proof.
  induction ms as [|[k' v] ms IH]; cbn; [intros _ []|].
  intros Hnd H1 H2. apply NoDup_cons in Hnd. destruct Hnd as [Hk' Hnd].
  assert (Hfresh : forall u, In (k', u) ms -> False).
  { intros u Hu. apply Hk', list_elem_of_In, in_map_iff. exists (k', u). auto. }
  destruct H1 as [H1|H1], H2 as [H2|H2].
  - congruence.
  - injection H1 as -> _. destruct (Hfresh _ H2).
  - injection H2 as -> _. destruct (Hfresh _ H1).
  - apply IH; assumption.
Qed.

(** The entries [iter_layers_and_parameters] yields. *)
Lemma In_iter_layers_and_parameters layers (i : nat) (a : option string) (p : nat) :
  In (i, a, p) (iter_layers_and_parameters layers) ->
  exists l, layers !! i = Some l /\ In p (parameters l) /\ a = find_param_name l p.
Proof.
  unfold iter_layers_and_parameters. intros Hin.
  apply in_concat in Hin. destruct Hin as (entries & Hentries & Hin).
  apply list_elem_of_In, elem_of_lookup_imap in Hentries.
  destruct Hentries as (i' & l & -> & Hl).
  apply in_map_iff in Hin. destruct Hin as (p' & [= <- <- <-] & Hp).
  exists l. auto.
Qed.

Lemma resolve_Some (lps : list (nat * option string * nat)) :
  (forall i a p, In (i, a, p) lps -> a <> None) ->
  exists L, resolve lps = Some L /\
            forall i k p, In (i, k, p) L -> In (i, Some k, p) lps.
Proof.
  induction lps as [|[[i a] p] lps IH]; intros Hall.
  - exists []. split; [reflexivity | intros ? ? ? []].
  - destruct IH as (L & HL & Hin).
    { intros i' a' p' H'. apply (Hall i' a' p'). right. exact H'. }
    destruct a as [name|]; [|destruct (Hall i None p); [left|]; reflexivity].
    exists ((i, name, p) :: L). cbn. rewrite HL. split; [reflexivity|].
    intros i' k' p' [[= <- <- <-]|H']; [left; reflexivity | right; apply Hin, H'].
Qed.

Lemma well_formed_resolve layers :
  well_formed layers ->
  exists L, resolve (iter_layers_and_parameters layers) = Some L /\
    forall i k p, In (i, k, p) L ->
      exists l, layers !! i = Some l /\ names_unique l /\ In (k, Shared p) (members l).
Proof.
  intros Hwf.
  destruct (resolve_Some (iter_layers_and_parameters layers)) as (L & HL & Hin).
  - intros i a p H'. apply In_iter_layers_and_parameters in H'.
    destruct H' as (l & Hl & Hp & ->).
    unfold well_formed in Hwf. rewrite Forall_forall in Hwf.
    apply (Hwf l); [eapply list_elem_of_lookup_2; exact Hl | exact Hp].
  - exists L. split; [exact HL|]. intros i k p H'.
    apply Hin, In_iter_layers_and_parameters in H'.
    destruct H' as (l & Hl & Hp & Hk). exists l. split; [exact Hl|].
    unfold well_formed in Hwf. rewrite Forall_forall in Hwf.
    split; [apply (Hwf l); eapply list_elem_of_lookup_2; exact Hl|].
    apply first_member_with_In. symmetry. exact Hk.
Qed.
End Store.

Section Prediction.
Context {F : Type} `{Scalar F} `{Network F}.

Lemma substitute_run (values : nat -> tensor F) (updated_params : sym F (vector F))
    (lps : list (nat * option string * nat)) (start_pos : nat)
    (layers : list (layer F)) :
  substitute_parameters values updated_params start_pos lps layers
  = match resolve lps with
    | Some L =>
        Ok (tt, fold_left apply_write
                  (substitution_writes values updated_params start_pos L) layers)
    | None => Raise TypeError
    end.
Proof.
  revert start_pos layers.
  induction lps as [|[[i a] p] lps IH]; intros start_pos layers; [reflexivity|].
  destruct a as [name|]; [|reflexivity].
  cbn [substitute_parameters resolve].
  unfold mbind, py_bind, bind. cbn [setattr].
  rewrite IH. destruct (resolve lps) as [L|]; reflexivity.
Qed.

Lemma restore_run (lps : list (nat * option string * nat)) (layers : list (layer F)) :
  restore_parameters lps layers
  = match resolve lps with
    | Some L => Ok (tt, fold_left apply_write (restoring_writes L) layers)
    | None => Raise TypeError
    end.
Proof.
  revert layers.
  induction lps as [|[[i a] p] lps IH]; intros layers; [reflexivity|].
  destruct a as [name|]; [|reflexivity].
  cbn [restore_parameters resolve].
  unfold mbind, py_bind, bind. cbn [setattr].
  rewrite IH. destruct (resolve lps) as [L|]; reflexivity.
Qed.

Lemma substitution_writes_keys (values : nat -> tensor F)
    (updated_params : sym F (vector F)) (L : list (nat * string * nat))
    (start_pos : nat) (w : @write F) :
  In w (substitution_writes values updated_params start_pos L) ->
  (exists p, In (w.1.1, w.1.2, p) L) /\ exists e, w.2 = Graph e.
Proof.
  revert start_pos. induction L as [|[[i k] p] L IH]; intros start_pos; [intros []|].
  cbn. intros [<-|Hin].
  - split; [exists p; left; reflexivity | eexists; reflexivity].
  - destruct (IH _ Hin) as [[p' Hp'] He]. split; [exists p'; right; exact Hp' | exact He].
Qed.

Lemma In_substitution_writes (values : nat -> tensor F)
    (updated_params : sym F (vector F)) (L : list (nat * string * nat))
    (start_pos : nat) (i : nat) (k : string) (p : nat) :
  In (i, k, p) L ->
  exists w, In w (substitution_writes values updated_params start_pos L)
            /\ w.1.1 = i /\ w.1.2 = k.
Proof.
  revert start_pos. induction L as [|[[i' k'] p'] L IH]; intros start_pos; [intros []|].
  cbn. intros [[= -> -> ->]|Hin].
  - eexists. split; [left; reflexivity | split; reflexivity].
  - destruct (IH (start_pos + tensor_size (values p')) Hin) as (w & Hw & Hi & Hk).
    exists w. split; [right; exact Hw | split; assumption].
Qed.

Lemma restoring_writes_keys (L : list (nat * string * nat)) (w : @write F) :
  In w (restoring_writes L) -> exists p, In (w.1.1, w.1.2, p) L /\ w.2 = Shared p.
Proof.
  unfold restoring_writes. intros Hin. apply in_map_iff in Hin.
  destruct Hin as ([[i k] p] & <- & Hin). exists p. split; [exact Hin | reflexivity].
Qed.

(** After the two loops every attribute holds what it held before. *)
Lemma substitute_then_restore (values : nat -> tensor F)
    (updated_params : sym F (vector F)) (start_pos : nat)
    (L : list (nat * string * nat)) (layers : list (layer F)) :
  (forall i k p, In (i, k, p) L ->
     exists l, layers !! i = Some l /\ names_unique l /\ In (k, Shared p) (members l)) ->
  fold_left apply_write (restoring_writes L)
    (fold_left apply_write
       (substitution_writes values updated_params start_pos L) layers)
  = layers.
Proof.
  intros HL. rewrite <- fold_left_app.
  rewrite apply_writes_as_map.
  - apply map_store_id. intros i l [k old] Hl Hkv. cbn [fst snd].
    rewrite last_write_app.
    destruct (last_write_cases (restoring_writes L) i k
                (last_write (substitution_writes values updated_params start_pos L)
                            i k old))
      as [(w & Hw & Hi & Hk & ->)|[Hno ->]].
    + apply restoring_writes_keys in Hw. destruct Hw as (p & Hp & ->).
      rewrite Hi, Hk in Hp. destruct (HL i k p Hp) as (l' & Hl' & Hnd & Hin).
      assert (l' = l) by congruence. subst l'.
      apply (unique_binding (members l) k _ _ Hnd Hin Hkv).
    + destruct (last_write_cases
                  (substitution_writes values updated_params start_pos L) i k old)
        as [(w & Hw & Hi & Hk & _)|[_ ->]]; [|reflexivity].
      exfalso. apply substitution_writes_keys in Hw. destruct Hw as [[p Hp] _].
      apply (Hno (w.1.1, w.1.2, Shared p)); [|cbn; auto].
      unfold restoring_writes. apply in_map_iff. exists (w.1.1, w.1.2, p). auto.
  - intros w l Hw Hl. apply in_app_or in Hw.
    assert (Hkey : exists p, In (w.1.1, w.1.2, p) L).
    { destruct Hw as [Hw|Hw].
      - apply substitution_writes_keys in Hw. apply Hw.
      - apply restoring_writes_keys in Hw. destruct Hw as (p & Hp & _). eauto. }
    destruct Hkey as [p Hp]. destruct (HL _ _ _ Hp) as (l' & Hl' & _ & Hin).
    assert (l' = l) by congruence. subst l'. apply (In_bound _ _ _ Hin).
Qed.

(** [prediction] returns the output of the connection over the
    substituted attributes and leaves the layers as they were. *)
Lemma prediction_run (values : nat -> tensor F) (param_vector param_delta : vector F)
    (layers : list (layer F)) (step : sym F F) :
  well_formed layers ->
  exists L, resolve (iter_layers_and_parameters layers) = Some L /\
  prediction values param_vector param_delta
             (iter_layers_and_parameters layers) step layers
  = Ok (connection_output
          (fold_left apply_write
             (substitution_writes values
                (fun t => T.vadd param_vector (T.vscale_l (step t) param_delta)) 0 L)
             layers),
        layers).
Proof.
  intros Hwf. destruct (well_formed_resolve layers Hwf) as (L & HL & Hin).
  exists L. split; [exact HL|].
  unfold prediction. cbv zeta. unfold mbind, py_bind, bind.
  rewrite substitute_run, HL. unfold output_of_connection.
  rewrite restore_run, HL.
  rewrite (substitute_then_restore _ _ _ _ _ Hin). reflexivity.
Qed.
End Prediction.

Section TrialEvaluation.
Context {F : Type} `{Scalar F} `{Network F}.

Lemma substituted_attribute (values : nat -> tensor F)
    (updated_params : sym F (vector F)) (start_pos : nat)
    (L : list (nat * string * nat)) (layers : list (layer F))
    (i : nat) (k : string) (p : nat) :
  (forall i k p, In (i, k, p) L ->
     exists l, layers !! i = Some l /\ names_unique l /\ In (k, Shared p) (members l)) ->
  In (i, k, p) L ->
  exists l e,
    fold_left apply_write
      (substitution_writes values updated_params start_pos L) layers !! i = Some l
    /\ In (k, Graph e) (members l).
Proof.
  intros HL Hin. destruct (HL i k p Hin) as (l & Hl & _ & Hk).
  rewrite apply_writes_as_map.
  - unfold map_store. rewrite list_lookup_imap, Hl. cbn.
    destruct (last_write_cases
                (substitution_writes values updated_params start_pos L) i k (Shared p))
      as [(w & Hw & Hi & Hk' & Heq)|[Hno _]].
    + destruct (substitution_writes_keys _ _ _ _ _ Hw) as [_ [e He]].
      eexists. exists e. split; [reflexivity|].
      unfold map_members. cbn. apply in_map_iff.
      exists (k, Shared p). cbn. rewrite Heq, He. auto.
    + exfalso.
      destruct (In_substitution_writes values updated_params L start_pos i k p Hin)
        as (w & Hw & Hi & Hk').
      apply (Hno w Hw). auto.
  - intros w l' Hw Hl'. apply substitution_writes_keys in Hw.
    destruct Hw as [[p' Hp'] _]. destruct (HL _ _ _ Hp') as (l'' & Hl'' & _ & Hin'').
    assert (l'' = l') by congruence. subst l''. apply (In_bound _ _ _ Hin'').
Qed.

(** C8. On well-formed layers (attribute names are unique and every
    parameter of a layer is bound to one of its attributes),
    [prediction step] binds every parameter attribute to a trial
    expression, takes the output of the connection, and binds every one of
    them to its shared variable again: the layers after the call are the
    layers before it.  So [phi] and [derphi] return without changing the
    layers, and evaluated twice at the same step they return the same
    value. *)
Theorem trial_evaluation_is_reversible (values : nat -> tensor F)
    (param_vector param_delta : vector F) (layers : list (layer F))
    (step : sym F F) :
  well_formed layers ->
  let lps := iter_layers_and_parameters layers in
  let updated_params : sym F (vector F) :=
    fun t => T.vadd param_vector (T.vscale_l (step t) param_delta) in
  let probe_phi := phi values param_vector param_delta lps step in
  let probe_derphi := derphi values param_vector param_delta lps step in
  (exists trial,
     substitute_parameters values updated_params 0 lps layers = Ok (tt, trial) /\
     (forall i name p, In (i, Some name, p) lps ->
        exists l e, trial !! i = Some l /\ In (name, Graph e) (members l)) /\
     restore_parameters lps trial = Ok (tt, layers) /\
     prediction values param_vector param_delta lps step layers
     = Ok (connection_output trial, layers)) /\
  (forall i name p, In (i, Some name, p) lps ->
     exists l, layers !! i = Some l /\ In (name, Shared p) (members l)) /\
  (exists v,
     probe_phi layers = Ok (v, layers) /\
     (v1 ← probe_phi ; v2 ← probe_phi ; mret (v1, v2)) layers
     = Ok ((v, v), layers)) /\
  (exists d,
     probe_derphi layers = Ok (d, layers) /\
     (d1 ← probe_derphi ; d2 ← probe_derphi ; mret (d1, d2)) layers
     = Ok ((d, d), layers)).
Proof.
  intros Hwf lps updated_params probe_phi probe_derphi.
  destruct (well_formed_resolve layers Hwf) as (L & HL & Hin).
  destruct (prediction_run values param_vector param_delta layers step Hwf)
    as (L' & HL' & Hpred).
  assert (L' = L) by congruence. subst L'. fold lps in HL, Hpred.
  fold updated_params in Hpred.
  assert (HinL : forall i name p, In (i, Some name, p) lps -> In (i, name, p) L).
  { clear -HL. revert L HL. induction lps as [|[[i' a'] p'] lps' IH]; intros L HL.
    - intros ? ? ? [].
    - cbn in HL. destruct a' as [name'|]; [|discriminate].
      destruct (resolve lps') as [L0|] eqn:HL0; [|discriminate].
      injection HL as <-. intros i name p [[= -> -> ->]|Hin'].
      + left. reflexivity.
      + right. apply (IH L0 eq_refl _ _ _ Hin'). }
  split; [|split; [|split]].
  - eexists. split; [rewrite substitute_run, HL; reflexivity|].
    split; [|split].
    + intros i name p Hlp.
      apply (substituted_attribute values updated_params 0 L layers i name p Hin).
      apply HinL, Hlp.
    + rewrite restore_run, HL.
      rewrite (substitute_then_restore _ _ _ _ _ Hin). reflexivity.
    + exact Hpred.
  - intros i name p Hlp. destruct (Hin i name p (HinL _ _ _ Hlp)) as (l & Hl & _ & Hk).
    exists l. auto.
  - assert (Hphi : probe_phi layers
                   = Ok (error (connection_output
                                  (fold_left apply_write
                                     (substitution_writes values updated_params 0 L)
                                     layers)), layers)).
    { unfold probe_phi, phi, mbind, py_bind, bind. rewrite Hpred. reflexivity. }
    eexists. split; [exact Hphi|].
    unfold mbind, py_bind, bind. rewrite Hphi. cbn beta iota. rewrite Hphi.
    reflexivity.
  - assert (Hder : probe_derphi layers
                   = Ok (grad_wrt_step
                           (error (connection_output
                                     (fold_left apply_write
                                        (substitution_writes values updated_params 0 L)
                                        layers))) step, layers)).
    { unfold probe_derphi, derphi, mbind, py_bind, bind. rewrite Hpred. reflexivity. }
    eexists. split; [exact Hder|].
    unfold mbind, py_bind, bind. rewrite Hder. cbn beta iota. rewrite Hder.
    reflexivity.
Qed.
End TrialEvaluation.

Lemma example_layers_well_formed {F : Type} : well_formed (example_layers F).
Proof.
  repeat constructor; cbn.
  - intros Hin. apply list_elem_of_In in Hin. destruct Hin as [Heq|[]]. discriminate Heq.
  - intros Hin. apply list_elem_of_In in Hin. destruct Hin.
  - intros p [<-|[<-|[]]]; cbn; discriminate.
Qed.

Lemma trial_evaluation_is_reversible_witness :
  exists v,
    phi (H0 := example_network spec_float) (example_values spec_float)
        [B64.of_Z 1; B64.of_Z 2; B64.of_Z 3]
        [B64.of_Z 1; B64.of_Z 1; B64.of_Z 1]
        (iter_layers_and_parameters (example_layers spec_float)) (fun t => t)
        (example_layers spec_float)
    = Ok (v, example_layers spec_float).
Proof.
  destruct (trial_evaluation_is_reversible
              (H0 := example_network spec_float) (example_values spec_float)
              [B64.of_Z 1; B64.of_Z 2; B64.of_Z 3]
              [B64.of_Z 1; B64.of_Z 1; B64.of_Z 1]
              (example_layers spec_float) (fun t => t) example_layers_well_formed)
    as (_ & _ & (v & Hv & _) & _).
  exists v. exact Hv.
Defined.

(** ** The step controller *)

Section Controller.
Context {F : Type} `{Scalar F} `{Network F}.

Lemma new_inv_hessian_first_epoch (update_function : update_fn)
    (self : shared_state F) (param_vector full_gradient : vector F) :
  epoch self = 1%Z ->
  new_inv_hessian update_function self param_vector full_gradient
  = inv_hessian self.
Proof. intros He. unfold new_inv_hessian. rewrite He. reflexivity. Qed.

Lemma new_inv_hessian_later_epoch (update_function : update_fn)
    (self : shared_state F) (param_vector full_gradient : vector F) :
  epoch self <> 1%Z ->
  new_inv_hessian update_function self param_vector full_gradient
  = update_function (inv_hessian self)
      (T.vsub param_vector (prev_params self))
      (T.vsub full_gradient (prev_full_gradient self)).
Proof.
  intros He. unfold new_inv_hessian.
  destruct (Z.eqb_spec (epoch self) 1); [contradiction|reflexivity].
Qed.

(** The shape of the result of [init_train_updates], given what the line
    search returns. *)
Lemma init_train_updates_run (update_function : update_fn) (self : shared_state F)
    (layers layers' : list (layer F)) (step : F) :
  let param_vector := parameters2vector (get_value self) layers in
  let full_gradient := full_gradient_of self layers in
  let H' := new_inv_hessian update_function self param_vector full_gradient in
  let param_delta := param_delta_of H' full_gradient in
  let lps := iter_layers_and_parameters layers in
  line_search (phi (get_value self) param_vector param_delta lps)
              (derphi (get_value self) param_vector param_delta lps) layers
  = Ok (step, layers') ->
  init_train_updates update_function self layers
  = Ok (setup_parameter_updates (get_value self) (iter_parameters layers)
          (T.vadd param_vector (T.vscale_l step param_delta))
        ++ [SetInvHessian H'; SetPrevParams param_vector;
            SetPrevFullGradient full_gradient],
        layers').
Proof.
  cbv zeta. intros Hls. unfold init_train_updates. cbv zeta.
  unfold mbind, py_bind, bind. unfold full_gradient_of in Hls.
  rewrite Hls. reflexivity.
Qed.

(** Committing updates of parameters leaves the optimiser's own
    variables alone. *)
Lemma commit_parameters_frame (values : nat -> tensor F) (params : list nat)
    (v : vector F) (start : nat) (st : shared_state F) :
  let st' := fold_left commit (setup_parameter_updates_from start values params v) st in
  epoch st' = epoch st /\ inv_hessian st' = inv_hessian st /\
  prev_params st' = prev_params st /\ prev_full_gradient st' = prev_full_gradient st.
Proof.
  cbv zeta. revert start st. induction params as [|p params IH]; intros start st.
  - cbn. auto.
  - cbn [setup_parameter_updates_from fold_left].
    destruct (IH (start + tensor_size (values p))
                 (commit st (SetParameter p
                    (reshape (slice v start (start + tensor_size (values p)))
                             (values p))))) as (-> & -> & -> & ->).
    cbn. auto.
Qed.

Lemma commit_parameters_other (values : nat -> tensor F) (params : list nat)
    (v : vector F) (start : nat) (st : shared_state F) (q : nat) :
  ~ In q params ->
  get_value (fold_left commit (setup_parameter_updates_from start values params v) st) q
  = get_value st q.
Proof.
  revert start st. induction params as [|p params IH]; intros start st Hq.
  - reflexivity.
  - cbn [setup_parameter_updates_from fold_left].
    rewrite IH by (intros Hin; apply Hq; right; exact Hin).
    cbn. destruct (Nat.eqb_spec q p) as [->|Hne]; [|reflexivity].
    exfalso. apply Hq. left. reflexivity.
Qed.

Lemma commit_parameters_data (values : nat -> tensor F) (params : list nat)
    (v : vector F) (start : nat) (st : shared_state F) :
  NoDup params ->
  concat (map (fun p =>
                 flatten (get_value
                            (fold_left commit
                               (setup_parameter_updates_from start values params v) st)
                            p)) params)
  = take (list_sum (map (fun p => tensor_size (values p)) params)) (drop start v).
Proof.
  revert start st. induction params as [|p params IH]; intros start st Hnd.
  - reflexivity.
  - apply NoDup_cons in Hnd. destruct Hnd as [Hp Hnd].
    cbn [setup_parameter_updates_from fold_left map concat list_sum].
    rewrite commit_parameters_other
      by (intros Hin; apply Hp, list_elem_of_In; exact Hin).
    rewrite (IH _ _ Hnd). cbn. rewrite Nat.eqb_refl. cbn.
    unfold slice. replace (start + tensor_size (values p) - start)
      with (tensor_size (values p)) by lia.
    rewrite <- (drop_drop v (tensor_size (values p)) start).
    apply take_take_drop.
Qed.

Lemma length_parameters2vector (values : nat -> tensor F) (layers : list (layer F)) :
  (forall p, In p (iter_parameters layers) ->
             length (data (values p)) = tensor_size (values p)) ->
  length (parameters2vector values layers)
  = list_sum (map (fun p => tensor_size (values p)) (iter_parameters layers)).
Proof.
  unfold parameters2vector. induction (iter_parameters layers) as [|p ps IH]; intros Hc.
  - reflexivity.
  - cbn. rewrite length_app, IH by (intros q Hq; apply Hc; right; exact Hq).
    unfold flatten. rewrite (Hc p) by (left; reflexivity). reflexivity.
Qed.

Lemma commit_parameters_get_value (values : nat -> tensor F) (params : list nat)
    (v : vector F) (start : nat) (st1 st2 : shared_state F) :
  get_value st1 = get_value st2 ->
  get_value (fold_left commit (setup_parameter_updates_from start values params v) st1)
  = get_value (fold_left commit (setup_parameter_updates_from start values params v) st2).
Proof.
  revert start st1 st2. induction params as [|p params IH]; intros start st1 st2 Hg.
  - exact Hg.
  - cbn [setup_parameter_updates_from fold_left]. apply IH. cbn. rewrite Hg.
    reflexivity.
Qed.

(** The state after the updates of one iteration. *)
Lemma run_iteration_updates (values : nat -> tensor F) (params : list nat)
    (v : vector F) (H1 : matrix F) (p g : vector F) (st : shared_state F) :
  run_updates (setup_parameter_updates values params v
               ++ [SetInvHessian H1; SetPrevParams p; SetPrevFullGradient g]) st
  = SharedState
      (get_value (fold_left commit (setup_parameter_updates values params v) st))
      (epoch st) H1 p g.
Proof.
  unfold run_updates, setup_parameter_updates. rewrite fold_left_app.
  cbn [fold_left commit get_value epoch inv_hessian prev_params prev_full_gradient].
  destruct (commit_parameters_frame values params v 0 st) as (He & _).
  rewrite He. reflexivity.
Qed.

Lemma committed_vector_after (values : nat -> tensor F) (layers : list (layer F))
    (v : vector F) (H1 : matrix F) (p g : vector F) (st : shared_state F) :
  tensors_consistent values layers ->
  length v <= length (parameters2vector values layers) ->
  committed_vector
    (run_updates (setup_parameter_updates values (iter_parameters layers) v
                  ++ [SetInvHessian H1; SetPrevParams p; SetPrevFullGradient g]) st)
    layers
  = v.
Proof.
  intros [Hnd Hc] Hlen. rewrite run_iteration_updates.
  unfold committed_vector, parameters2vector. cbn [get_value].
  unfold setup_parameter_updates.
  rewrite (commit_parameters_data values _ v 0 st Hnd).
  rewrite drop_0. apply take_ge.
  rewrite <- (length_parameters2vector values layers Hc). exact Hlen.
Qed.
End Controller.

Section ExactStep.
Context {F : Type} `{ExactRing F}.

Add Ring exact_ring_step : exact_ring_theory.

Lemma bigsum_delta (n i : nat) (f : nat -> F) :
  bigsum n (fun k => ((if Nat.eqb i k then asfloat 1 else asfloat 0) * f k)%fl)
  = if Nat.ltb i n then f i else asfloat 0.
Proof.
  induction n as [|n IH]; [reflexivity|].
  rewrite bigsum_S, IH.
  destruct (Nat.ltb_spec i n) as [Hlt|Hge].
  - destruct (Nat.eqb_spec i n) as [->|_]; [lia|].
    destruct (Nat.ltb_spec i (S n)); [ring|lia].
  - destruct (Nat.eqb_spec i n) as [->|Hne].
    + destruct (Nat.ltb_spec n (S n)); [ring|lia].
    + destruct (Nat.ltb_spec i (S n)); [lia|ring].
Qed.

(** With the identity as inverse Hessian and the step 1, the new
    parameters are p - g. *)
Lemma unit_step_from_identity (n : nat) (p g : vector F) :
  length p = n -> length g = n ->
  T.vadd p (T.vscale_l (asfloat 1)
              (param_delta_of (T.scale_l (asfloat 1) (T.eye n)) g))
  = T.vsub p g.
Proof.
  intros Hp Hg. unfold param_delta_of, T.vadd, T.vsub, T.vscale_l, T.vneg.
  assert (HM : T.is_matrix n n (T.scale_l (asfloat 1) (T.eye n)))
    by (unfold T.scale_l; apply is_matrix_map_m, is_matrix_eye).
  apply (nth_ext _ _ (asfloat 0) (asfloat 0)).
  - rewrite !length_zip_with, !length_map, length_dot_mv.
    destruct HM as [-> _]. lia.
  - intros i Hi. rewrite length_zip_with, !length_map, length_dot_mv in Hi.
    destruct HM as [HMn HMr]. rewrite HMn in Hi.
    rewrite !(nth_zip_with_lt _ _ _ i (asfloat 0) (asfloat 0))
      by (rewrite ?length_map, ?length_dot_mv; lia).
    rewrite !(nth_map_lt _ _ i (asfloat 0))
      by (rewrite ?length_map, ?length_dot_mv; lia).
    change (nth i (T.dot_mv (T.scale_l (asfloat 1) (T.eye n)) g) (asfloat 0))
      with (T.vget (T.dot_mv (T.scale_l (asfloat 1) (T.eye n)) g) i).
    rewrite (vget_dot_mv n n) by (try split; auto; lia).
    rewrite (bigsum_ext n _
               (fun k => ((if Nat.eqb i k then asfloat 1 else asfloat 0)
                          * T.vget g k)%fl)).
    + rewrite bigsum_delta. destruct (Nat.ltb_spec i n); [|lia].
      unfold T.vget. ring.
    + intros k Hk. unfold T.scale_l.
      rewrite (mget_map_m _ n n) by (auto using is_matrix_eye; lia).
      rewrite mget_eye by lia. ring.
Qed.
End ExactStep.

Section StepController.
Context {F : Type} `{Scalar F} `{Network F}.

(** C5. On epoch 1 the update function is not invoked: the result of
    [init_train_updates] is the same whatever the update function is, the
    inverse Hessian that gives the direction is the stored one, the
    direction is minus its product with the gradient, and the value
    persisted is the stored one again.  From [init_variables] the stored
    value is the scaled identity and the epoch is 1.  On any other epoch
    the inverse Hessian is the result of the update function. *)
Theorem first_epoch_keeps_inverse_hessian (update_function : update_fn)
    (self : shared_state F) (layers : list (layer F)) :
  let p := parameters2vector (get_value self) layers in
  let g := full_gradient_of self layers in
  let lps := iter_layers_and_parameters layers in
  (epoch self = 1%Z ->
   new_inv_hessian update_function self p g = inv_hessian self /\
   param_delta_of (new_inv_hessian update_function self p g) g
   = T.vneg (T.dot_mv (inv_hessian self) g) /\
   (forall other : update_fn,
      init_train_updates other self layers
      = init_train_updates update_function self layers) /\
   (forall step layers',
      let d := T.vneg (T.dot_mv (inv_hessian self) g) in
      line_search (phi (get_value self) p d lps) (derphi (get_value self) p d lps)
                  layers = Ok (step, layers') ->
      exists updates,
        init_train_updates update_function self layers = Ok (updates, layers') /\
        In (SetInvHessian (inv_hessian self)) updates /\
        inv_hessian (run_updates updates self) = inv_hessian self /\
        (tensors_consistent (get_value self) layers ->
         committed_vector (run_updates updates self) layers
         = T.vadd p (T.vscale_l step d)))) /\
  (epoch self <> 1%Z ->
   new_inv_hessian update_function self p g
   = update_function (inv_hessian self) (T.vsub p (prev_params self))
                     (T.vsub g (prev_full_gradient self))) /\
  (forall h0_scale values param_vector full_gradient,
     let scaled_identity :=
       T.scale_l h0_scale
         (T.eye (list_sum (map (fun q => tensor_size (values q))
                               (iter_parameters layers)))) in
     epoch (init_variables h0_scale values layers) = 1%Z /\
     inv_hessian (init_variables h0_scale values layers) = scaled_identity /\
     new_inv_hessian update_function (init_variables h0_scale values layers)
                     param_vector full_gradient
     = scaled_identity).
Proof.
  intros p g lps. split; [|split].
  - intros He.
    pose proof (new_inv_hessian_first_epoch update_function self p g He) as Hnew.
    split; [exact Hnew|]. split; [rewrite Hnew; reflexivity|]. split.
    + intros other. unfold init_train_updates. cbv zeta.
      fold (full_gradient_of self layers). fold p g.
      rewrite (new_inv_hessian_first_epoch other self p g He), Hnew. reflexivity.
    + intros step layers' d Hls.
      pose proof (init_train_updates_run update_function self layers layers' step)
        as Hrun.
      cbv zeta in Hrun. fold p g lps in Hrun. rewrite Hnew in Hrun.
      unfold param_delta_of in Hrun. fold d in Hrun. specialize (Hrun Hls).
      eexists. split; [exact Hrun|]. split; [|split].
      * apply in_or_app. right. left. reflexivity.
      * rewrite run_iteration_updates. reflexivity.
      * intros Hc. apply committed_vector_after; [exact Hc|].
        unfold T.vadd. rewrite length_zip_with. fold p. lia.
  - intros He. apply new_inv_hessian_later_epoch, He.
  - intros h0_scale values param_vector full_gradient. cbv zeta.
    repeat split.
Qed.

(** When the line search returns the step alpha, the vector handed
    to the parameter updates, and committed by them, is
    p + alpha (- H g) with H the inverse Hessian of this iteration, and
    the state persisted is that H, p as previous parameters and g as
    previous gradient.  In exact arithmetic, from [init_variables] with
    [h0_scale] 1 and with a line search that returns 1, the committed
    parameters are p - g. *)
Lemma committed_step_in_any_arithmetic :
  (forall (update_function : update_fn) (self : shared_state F)
          (layers layers' : list (layer F)) (alpha : F),
     let p := parameters2vector (get_value self) layers in
     let g := full_gradient_of self layers in
     let H1 := new_inv_hessian update_function self p g in
     let d := T.vneg (T.dot_mv H1 g) in
     let lps := iter_layers_and_parameters layers in
     line_search (phi (get_value self) p d lps) (derphi (get_value self) p d lps)
                 layers = Ok (alpha, layers') ->
     exists updates,
       init_train_updates update_function self layers = Ok (updates, layers') /\
       updates
       = setup_parameter_updates (get_value self) (iter_parameters layers)
           (T.vadd p (T.vscale_l alpha d))
         ++ [SetInvHessian H1; SetPrevParams p; SetPrevFullGradient g] /\
       inv_hessian (run_updates updates self) = H1 /\
       prev_params (run_updates updates self) = p /\
       prev_full_gradient (run_updates updates self) = g /\
       (tensors_consistent (get_value self) layers ->
        committed_vector (run_updates updates self) layers
        = T.vadd p (T.vscale_l alpha d))) /\
  (ExactRing F ->
   forall (update_function : update_fn) (values : nat -> tensor F)
          (layers layers' : list (layer F)),
     let self := init_variables (asfloat 1) values layers in
     let p := parameters2vector values layers in
     let g := full_gradient_of self layers in
     let d := T.vneg (T.dot_mv (inv_hessian self) g) in
     let lps := iter_layers_and_parameters layers in
     tensors_consistent values layers ->
     length g = length p ->
     line_search (phi values p d lps) (derphi values p d lps) layers
     = Ok (asfloat 1, layers') ->
     exists updates,
       init_train_updates update_function self layers = Ok (updates, layers') /\
       committed_vector (run_updates updates self) layers = T.vsub p g).
Proof.
  split.
  - intros update_function self layers layers' alpha p g H1 d lps Hls.
    pose proof (init_train_updates_run update_function self layers layers' alpha)
      as Hrun.
    cbv zeta in Hrun. fold p g lps in Hrun. fold H1 in Hrun.
    unfold param_delta_of in Hrun. fold d in Hrun. specialize (Hrun Hls).
    eexists. split; [exact Hrun|]. split; [reflexivity|].
    rewrite run_iteration_updates. cbn [inv_hessian prev_params prev_full_gradient].
    repeat split.
    intros Hc. rewrite <- run_iteration_updates.
    apply committed_vector_after; [exact Hc|].
    unfold T.vadd. rewrite length_zip_with. fold p. lia.
  - intros Hexact update_function values layers layers' self p g d lps Hc Hg Hls.
    pose proof (init_train_updates_run update_function self layers layers'
                  (asfloat 1)) as Hrun.
    cbv zeta in Hrun.
    assert (He : epoch self = 1%Z) by reflexivity.
    change (get_value self) with values in Hrun. fold p g lps in Hrun.
    rewrite (new_inv_hessian_first_epoch update_function self p g He) in Hrun.
    unfold param_delta_of in Hrun. fold d in Hrun. specialize (Hrun Hls).
    eexists. split; [exact Hrun|].
    rewrite committed_vector_after.
    + subst d. cbn [inv_hessian self init_variables].
      rewrite <- (length_parameters2vector values layers (proj2 Hc)). fold p.
      apply (unit_step_from_identity (length p) p g eq_refl Hg).
    + exact Hc.
    + unfold T.vadd. rewrite length_zip_with. fold p. lia.
Qed.

(** C10. On epoch 1 the result of the iteration does not depend on the
    stored previous parameters and previous gradient: with other vectors
    in their place [init_train_updates] returns the same updates, and the
    state committed from them is the same. *)
Theorem first_epoch_ignores_previous (update_function : update_fn)
    (self : shared_state F) (pp pg : vector F) (layers : list (layer F)) :
  epoch self = 1%Z ->
  init_train_updates update_function (with_previous self pp pg) layers
  = init_train_updates update_function self layers /\
  forall updates layers',
    init_train_updates update_function self layers = Ok (updates, layers') ->
    run_updates updates (with_previous self pp pg) = run_updates updates self /\
    committed_vector (run_updates updates (with_previous self pp pg)) layers
    = committed_vector (run_updates updates self) layers /\
    inv_hessian (run_updates updates (with_previous self pp pg))
    = inv_hessian (run_updates updates self).
Proof.
  intros He.
  assert (Hsame : init_train_updates update_function (with_previous self pp pg) layers
                  = init_train_updates update_function self layers).
  { unfold init_train_updates. cbv zeta.
    change (get_value (with_previous self pp pg)) with (get_value self).
    rewrite !new_inv_hessian_first_epoch by (try exact He; reflexivity).
    reflexivity. }
  split; [exact Hsame|].
  intros updates layers' Hrun.
  assert (Heq : run_updates updates (with_previous self pp pg)
                = run_updates updates self).
  { unfold init_train_updates in Hrun. cbv zeta in Hrun.
    unfold mbind, py_bind, bind in Hrun.
    destruct (line_search _ _ layers) as [[step layers'']|e]; [|discriminate].
    cbn in Hrun. injection Hrun as <- _.
    rewrite !run_iteration_updates. f_equal.
    apply commit_parameters_get_value. reflexivity. }
  rewrite Heq. auto.
Qed.
End StepController.


(** ** The unit step on binary64 *)

Lemma digits2_pos_shift (m : positive) (k : nat) :
  Z.pos (digits2_pos (Nat.iter k xO m)) = (Z.pos (digits2_pos m) + Z.of_nat k)%Z.
Proof.
  induction k as [|k IH]; [cbn; lia|].
  change (Nat.iter (S k) xO m) with (xO (Nat.iter k xO m)).
  cbn [digits2_pos]. rewrite Pos2Z.inj_succ, IH. lia.
Qed.

Lemma SFmul_one_finite (s : bool) (m : positive) (e : Z) :
  bounded B64.prec B64.emax m e = true ->
  SFmul B64.prec B64.emax (B64.of_Z 1) (S754_finite s m e) = S754_finite s m e.
Proof.
  intros Hb. unfold bounded, canonical_mantissa in Hb.
  apply andb_true_iff in Hb. destruct Hb as [Hc He].
  apply Z.eqb_eq in Hc.
  change (B64.of_Z 1) with (S754_finite false 4503599627370496 (-52)).
  cbn [SFmul xorb].
  change (Pos.mul 4503599627370496 m) with (Nat.iter 52 xO m).
  unfold binary_round_aux, shr_fexp. cbn [Zdigits2].
  rewrite digits2_pos_shift.
  replace (Z.pos (digits2_pos m) + Z.of_nat 52 + (-52 + e))%Z
    with (Z.pos (digits2_pos m) + e)%Z by lia.
  rewrite Hc.
  replace (e - (-52 + e))%Z with 52%Z by lia.
  assert (Hshift : shr (shr_record_of_loc (Z.pos (Nat.iter 52 xO m)) loc_Exact)
                      (-52 + e) 52
                  = ({| shr_m := Z.pos m; shr_r := false; shr_s := false |}, e)).
  { unfold shr. replace (-52 + e + 52)%Z with e by lia.
    apply (f_equal (fun mrs => (mrs, e))). vm_compute. reflexivity. }
  rewrite Hshift. cbn [shr_m loc_of_shr_record round_nearest_even Zdigits2].
  rewrite Hc, Z.sub_diag. cbn [shr shr_record_of_loc shr_m]. rewrite He.
  reflexivity.
Qed.

Lemma SFmul_one (x : spec_float) :
  valid_binary B64.prec B64.emax x = true ->
  SFmul B64.prec B64.emax (B64.of_Z 1) x = x.
Proof.
  destruct x as [s|s| |s m e]; [reflexivity..|]. apply SFmul_one_finite.
Qed.

Lemma SFsub_as_add (x y : spec_float) :
  SFsub B64.prec B64.emax x y = SFadd B64.prec B64.emax x (SFopp y).
Proof.
  destruct x as [sx|sx| |sx mx ex], y as [sy|sy| |sy my ey];
    try reflexivity; destruct sx, sy; reflexivity.
Qed.

Lemma regular_valid (x : spec_float) :
  regular x = true -> valid_binary B64.prec B64.emax x = true.
Proof. destruct x as [s|s| |s m e]; cbn; auto. Qed.

Lemma zero_times_regular (x : spec_float) :
  regular x = true ->
  (S754_zero false + S754_zero false * x)%fl = S754_zero false.
Proof. destruct x as [[|]|s| |[|] m e]; cbn; intros; try discriminate; reflexivity. Qed.

Lemma regular_plus_zero_times (x y : spec_float) :
  regular x = true -> regular y = true ->
  (x + S754_zero false * y)%fl = x.
Proof.
  destruct x as [[|]|sx| |sx mx ex], y as [[|]|sy| |[|] my ey];
    cbn; intros; try discriminate; reflexivity.
Qed.

Lemma zero_plus_regular (x : spec_float) :
  regular x = true -> (S754_zero false + x)%fl = x.
Proof. destruct x as [[|]|s| |s m e]; cbn; intros; try discriminate; reflexivity. Qed.

Lemma unit_row_before (f : nat -> spec_float) (i n : nat) :
  n <= i -> (forall k, k < n -> regular (f k) = true) ->
  bigsum n (fun k => (asfloat 1 * (if Nat.eqb i k then asfloat 1 else asfloat 0)
                      * f k)%fl)
  = S754_zero false.
Proof.
  induction n as [|n IH]; intros Hn Hf; [reflexivity|].
  rewrite bigsum_S, IH by (try lia; intros k Hk; apply Hf; lia).
  destruct (Nat.eqb_spec i n) as [->|_]; [lia|].
  change (asfloat 1 * asfloat 0)%fl with (S754_zero false).
  apply zero_times_regular, Hf. lia.
Qed.

Lemma unit_row (f : nat -> spec_float) (i n : nat) :
  i < n -> (forall k, k < n -> regular (f k) = true) ->
  bigsum n (fun k => (asfloat 1 * (if Nat.eqb i k then asfloat 1 else asfloat 0)
                      * f k)%fl)
  = f i.
Proof.
  induction n as [|n IH]; intros Hn Hf; [lia|].
  rewrite bigsum_S. destruct (Nat.eqb_spec i n) as [->|Hne].
  - rewrite unit_row_before by (try lia; intros k Hk; apply Hf; lia).
    change (asfloat 1 * asfloat 1)%fl with (B64.of_Z 1).
    change (B64.of_Z 1 * f n)%fl with (SFmul B64.prec B64.emax (B64.of_Z 1) (f n)).
    rewrite SFmul_one by (apply regular_valid, Hf; lia).
    apply zero_plus_regular, Hf. lia.
  - rewrite IH by (try lia; intros k Hk; apply Hf; lia).
    change (asfloat 1 * asfloat 0)%fl with (S754_zero false).
    apply regular_plus_zero_times; apply Hf; lia.
Qed.

(** On binary64, with the identity as inverse Hessian and the step 1,
    the new parameters are p - g when no entry of the gradient is
    infinite, NaN or a negative zero. *)
Lemma unit_step_from_identity_binary64 (n : nat) (p g : vector spec_float) :
  length p = n -> length g = n -> gradient_regular g = true ->
  T.vadd p (T.vscale_l (asfloat 1)
              (param_delta_of (T.scale_l (asfloat 1) (T.eye n)) g))
  = T.vsub p g.
Proof.
  intros Hp Hg Hreg. unfold gradient_regular in Hreg.
  rewrite forallb_forall in Hreg.
  assert (Hentry : forall k, k < n -> regular (T.vget g k) = true).
  { intros k Hk. apply Hreg, nth_In. lia. }
  unfold param_delta_of, T.vadd, T.vsub, T.vscale_l, T.vneg.
  set (one := asfloat 1 : spec_float). set (zero := asfloat 0 : spec_float).
  assert (HM : T.is_matrix n n (T.scale_l one (T.eye n)))
    by (unfold T.scale_l; apply is_matrix_map_m, is_matrix_eye).
  apply (nth_ext _ _ zero zero).
  - rewrite !length_zip_with, !length_map, length_dot_mv.
    destruct HM as [-> _]. lia.
  - intros i Hi. rewrite length_zip_with, !length_map, length_dot_mv in Hi.
    destruct HM as [HMn HMr]. rewrite HMn in Hi.
    rewrite !(nth_zip_with_lt _ _ _ i zero zero)
      by (rewrite ?length_map, ?length_dot_mv; lia).
    rewrite !(nth_map_lt _ _ i zero)
      by (rewrite ?length_map, ?length_dot_mv; lia).
    change (nth i (T.dot_mv (T.scale_l one (T.eye n)) g) zero)
      with (T.vget (T.dot_mv (T.scale_l one (T.eye n)) g) i).
    rewrite (vget_dot_mv n n) by (try split; auto; lia).
    rewrite (bigsum_ext n _
               (fun k => (one * (if Nat.eqb i k then one else zero)
                          * T.vget g k)%fl)).
    + rewrite (unit_row (T.vget g) i n) by (auto; lia).
      fold (T.vget g i). subst one zero.
      change (asfloat 1 * - T.vget g i)%fl
        with (SFmul B64.prec B64.emax (B64.of_Z 1) (SFopp (T.vget g i))).
      rewrite SFmul_one.
      * symmetry. apply SFsub_as_add.
      * specialize (Hentry i ltac:(lia)).
        destruct (T.vget g i) as [s|s| |s m e]; cbn in *; auto.
    + intros k Hk. unfold T.scale_l.
      rewrite (mget_map_m _ n n) by (auto using is_matrix_eye; lia).
      rewrite mget_eye by lia. reflexivity.
Qed.

(** C6, as amended.  When the line search returns the step alpha, the
    vector handed to the parameter updates, and committed by them, is
    p + alpha (- H g) with H the inverse Hessian of this iteration, and
    the state persisted is that H, p as previous parameters and g as
    previous gradient, in every arithmetic.  From [init_variables] with
    [h0_scale] 1 and with a line search that returns 1, the committed
    parameters are p - g in exact arithmetic, and on binary64 when no
    entry of the gradient is infinite, NaN or a negative zero. *)
Theorem committed_step :
  (forall (F : Type) (HS : Scalar F) (HN : Network F)
          (update_function : update_fn) (self : shared_state F)
          (layers layers' : list (layer F)) (alpha : F),
     let p := parameters2vector (get_value self) layers in
     let g := full_gradient_of self layers in
     let H1 := new_inv_hessian update_function self p g in
     let d := T.vneg (T.dot_mv H1 g) in
     let lps := iter_layers_and_parameters layers in
     line_search (phi (get_value self) p d lps) (derphi (get_value self) p d lps)
                 layers = Ok (alpha, layers') ->
     exists updates,
       init_train_updates update_function self layers = Ok (updates, layers') /\
       updates
       = setup_parameter_updates (get_value self) (iter_parameters layers)
           (T.vadd p (T.vscale_l alpha d))
         ++ [SetInvHessian H1; SetPrevParams p; SetPrevFullGradient g] /\
       inv_hessian (run_updates updates self) = H1 /\
       prev_params (run_updates updates self) = p /\
       prev_full_gradient (run_updates updates self) = g /\
       (tensors_consistent (get_value self) layers ->
        committed_vector (run_updates updates self) layers
        = T.vadd p (T.vscale_l alpha d))) /\
  (forall (F : Type) (HS : Scalar F) (HN : Network F),
     ExactRing F ->
     forall (update_function : update_fn) (values : nat -> tensor F)
            (layers layers' : list (layer F)),
       let self := init_variables (asfloat 1) values layers in
       let p := parameters2vector values layers in
       let g := full_gradient_of self layers in
       let d := T.vneg (T.dot_mv (inv_hessian self) g) in
       let lps := iter_layers_and_parameters layers in
       tensors_consistent values layers ->
       length g = length p ->
       line_search (phi values p d lps) (derphi values p d lps) layers
       = Ok (asfloat 1, layers') ->
       exists updates,
         init_train_updates update_function self layers = Ok (updates, layers') /\
         committed_vector (run_updates updates self) layers = T.vsub p g) /\
  (forall (HN : Network spec_float) (update_function : update_fn)
          (values : nat -> tensor spec_float)
          (layers layers' : list (layer spec_float)),
     let self := init_variables (asfloat 1) values layers in
     let p := parameters2vector values layers in
     let g := full_gradient_of self layers in
     let d := T.vneg (T.dot_mv (inv_hessian self) g) in
     let lps := iter_layers_and_parameters layers in
     tensors_consistent values layers ->
     length g = length p ->
     gradient_regular g = true ->
     line_search (phi values p d lps) (derphi values p d lps) layers
     = Ok (asfloat 1, layers') ->
     exists updates,
       init_train_updates update_function self layers = Ok (updates, layers') /\
       committed_vector (run_updates updates self) layers = T.vsub p g).
Proof.
  split; [|split].
  - intros F HS HN. apply (committed_step_in_any_arithmetic (F := F)).
  - intros F HS HN. apply (committed_step_in_any_arithmetic (F := F)).
  - intros HN update_function values layers layers' self p g d lps Hc Hg Hreg Hls.
    pose proof (init_train_updates_run update_function self layers layers'
                  (asfloat 1)) as Hrun.
    cbv zeta in Hrun.
    assert (He : epoch self = 1%Z) by reflexivity.
    change (get_value self) with values in Hrun. fold p g lps in Hrun.
    rewrite (new_inv_hessian_first_epoch update_function self p g He) in Hrun.
    unfold param_delta_of in Hrun. fold d in Hrun. specialize (Hrun Hls).
    eexists. split; [exact Hrun|].
    rewrite committed_vector_after.
    + subst d. cbn [inv_hessian self init_variables].
      rewrite <- (length_parameters2vector values layers (proj2 Hc)). fold p.
      apply (unit_step_from_identity_binary64 (length p) p g eq_refl Hg Hreg).
    + exact Hc.
    + unfold T.vadd. rewrite length_zip_with. fold p. lia.
Qed.

(** C6, as stated, fails on binary64: the small network at the finite
    parameters p = [2^1023, 2, 3] has the gradient g = [inf, 4, 6]; with
    the identity as inverse Hessian the product I g holds 0 * inf in
    its second and third entries, and the committed parameters are
    [-inf, NaN, NaN], where p - g is [-inf, -2, -3]. *)
Lemma unit_step_with_infinite_gradient :
  let layers := example_layers spec_float in
  let self := init_variables (B64.of_Z 1) example_values_large layers in
  let p := parameters2vector example_values_large layers in
  let g := full_gradient_of (H0 := example_network spec_float) self layers in
  B64.vector_finite p = true /\
  g = [S754_infinity false; B64.of_Z 4; B64.of_Z 6] /\
  T.dot_mv (inv_hessian self) g = [S754_infinity false; S754_nan; S754_nan] /\
  T.vsub p g = [S754_infinity true; B64.of_Z (-2); B64.of_Z (-3)] /\
  exists updates,
    init_train_updates (H0 := example_network spec_float) (default_bfgs spec_float)
      self layers
    = Ok (updates, layers) /\
    committed_vector (run_updates updates self) layers
    = [S754_infinity true; S754_nan; S754_nan].
Proof.
  cbv zeta. repeat split; try (vm_compute; reflexivity).
  eexists. split; vm_compute; reflexivity.
Qed.

(** ** Configuration *)

Section ConfigurationFacts.
Context `{Network spec_float}.

Lemma unknown_choice (name : string) :
  name <> "bfgs"%string -> name <> "dfp"%string ->
  name <> "psb"%string -> name <> "sr1"%string ->
  choice (update_function_choices (F := spec_float)) name = None.
Proof.
  intros H1 H2 H3 H4. unfold choice, update_function_choices. cbn [find fst].
  rewrite !(proj2 (String.eqb_neq _ _)) by congruence. reflexivity.
Qed.

(** C9. Construction fails, before any iteration, on an update function
    name outside bfgs, dfp, psb and sr1 (such as newton) and on a
    negative [h0_scale] (such as -1); with no argument given the update
    function is bfgs and [h0_scale] is 1; the four names, with a
    [h0_scale] that is not negative, are accepted. *)
Theorem invalid_configuration_fails :
  (forall name h0_scale_arg,
     name <> "bfgs"%string -> name <> "dfp"%string ->
     name <> "psb"%string -> name <> "sr1"%string ->
     QuasiNewton_init (F := spec_float) (Some name) h0_scale_arg = Raise ValueError /\
     forall values layers,
       QuasiNewton_train (Some name) h0_scale_arg values layers = Raise ValueError) /\
  (forall update_function_arg h0,
     SFltb h0 (B64.of_Z 0) = true ->
     QuasiNewton_init update_function_arg (Some h0) = Raise ValueError /\
     forall values layers,
       QuasiNewton_train update_function_arg (Some h0) values layers
       = Raise ValueError) /\
  QuasiNewton_init (F := spec_float) (Some "newton"%string) None = Raise ValueError /\
  QuasiNewton_init None (Some (B64.of_Z (-1))) = Raise ValueError /\
  QuasiNewton_init (F := spec_float) None None
  = Ok {| update_function := "bfgs"%string; h0_scale := B64.of_Z 1 |} /\
  (forall name h0,
     In name ["bfgs"; "dfp"; "psb"; "sr1"]%string ->
     SFltb h0 (B64.of_Z 0) = false ->
     QuasiNewton_init (Some name) (Some h0)
     = Ok {| update_function := name; h0_scale := h0 |}).
Proof.
  assert (Hneg : forall update_function_arg h0,
             SFltb h0 (B64.of_Z 0) = true ->
             QuasiNewton_init update_function_arg (Some h0) = Raise ValueError).
  { intros update_function_arg h0 Hlt.
    unfold QuasiNewton_init, ChoiceProperty_set, NumberProperty_set.
    destruct (choice _ _); [|reflexivity].
    cbn [keyword f_lt binary64]. change (asfloat 0) with (B64.of_Z 0).
    rewrite Hlt. reflexivity. }
  assert (Hname : forall name h0_scale_arg,
             name <> "bfgs"%string -> name <> "dfp"%string ->
             name <> "psb"%string -> name <> "sr1"%string ->
             QuasiNewton_init (F := spec_float) (Some name) h0_scale_arg
             = Raise ValueError).
  { intros name h0_scale_arg H1 H2 H3 H4.
    unfold QuasiNewton_init, ChoiceProperty_set. cbn [keyword].
    rewrite unknown_choice by assumption. reflexivity. }
  split; [|split; [|split; [|split; [|split]]]].
  - intros name h0_scale_arg H1 H2 H3 H4. split; [apply Hname; assumption|].
    intros values layers. unfold QuasiNewton_train.
    rewrite Hname by assumption. reflexivity.
  - intros update_function_arg h0 Hlt. split; [apply Hneg, Hlt|].
    intros values layers. unfold QuasiNewton_train.
    rewrite Hneg by assumption. reflexivity.
  - apply Hname; discriminate.
  - apply Hneg. vm_compute. reflexivity.
  - vm_compute. reflexivity.
  - intros name h0 Hin Hpos.
    unfold QuasiNewton_init, ChoiceProperty_set, NumberProperty_set.
    cbn [keyword f_lt binary64]. change (asfloat 0) with (B64.of_Z 0). rewrite Hpos.
    destruct Hin as [<-|[<-|[<-|[<-|[]]]]]; reflexivity.
Qed.
End ConfigurationFacts.

(** ** Runs of the small network *)

Lemma example_consistent {F : Type} `{Scalar F} :
  tensors_consistent (example_values F) (example_layers F).
Proof.
  split.
  - cbn. repeat constructor.
    + intros Hin. apply list_elem_of_In in Hin. destruct Hin as [Heq|[]]. discriminate.
    + intros Hin. apply list_elem_of_In in Hin. destruct Hin.
  - intros p [<-|[<-|[]]]; reflexivity.
Qed.

Lemma first_epoch_keeps_inverse_hessian_witness :
  (exists updates,
     init_train_updates (H0 := example_network spec_float) (default_bfgs spec_float)
       (example_state spec_float) (example_layers spec_float)
     = Ok (updates, example_layers spec_float) /\
     inv_hessian (run_updates updates (example_state spec_float))
     = T.scale_l (B64.of_Z 1) (T.eye 3) /\
     committed_vector (run_updates updates (example_state spec_float))
                      (example_layers spec_float)
     = [B64.of_Z (-1); B64.of_Z (-2); B64.of_Z (-3)]) /\
  new_inv_hessian (default_bfgs spec_float) (example_state_later spec_float)
    [B64.of_Z 1; B64.of_Z 2; B64.of_Z 3] [B64.of_Z 2; B64.of_Z 4; B64.of_Z 6]
  = bfgs (T.scale_l (B64.of_Z 1) (T.eye 3))
         [B64.of_Z 1; B64.of_Z 1; B64.of_Z 2] [B64.of_Z 1; B64.of_Z 3; B64.of_Z 5]
         default_maxrho.
Proof.
  split.
  - destruct (first_epoch_keeps_inverse_hessian (H0 := example_network spec_float)
                (default_bfgs spec_float) (example_state spec_float)
                (example_layers spec_float)) as (Hfirst & _ & _).
    destruct (Hfirst eq_refl) as (_ & _ & _ & Hrun).
    destruct (Hrun (B64.of_Z 1) (example_layers spec_float)
                ltac:(vm_compute; reflexivity)) as (updates & Hu & _ & Hh & Hc).
    exists updates. split; [exact Hu|]. split; [exact Hh|].
    rewrite (Hc example_consistent). vm_compute. reflexivity.
  - destruct (first_epoch_keeps_inverse_hessian (H0 := example_network spec_float)
                (default_bfgs spec_float) (example_state_later spec_float)
                (example_layers spec_float)) as (_ & Hlater & _).
    pose proof (Hlater ltac:(discriminate)) as Hl.
    vm_compute in Hl. vm_compute. exact Hl.
Defined.

Lemma committed_step_witness :
  (exists updates,
     init_train_updates (H0 := example_network spec_float) (default_bfgs spec_float)
       (example_state spec_float) (example_layers spec_float)
     = Ok (updates, example_layers spec_float) /\
     committed_vector (run_updates updates (example_state spec_float))
                      (example_layers spec_float)
     = [B64.of_Z (-1); B64.of_Z (-2); B64.of_Z (-3)]) /\
  (exists updates,
     init_train_updates (H0 := example_network_unit_step R) (default_bfgs R)
       (example_state R) (example_layers R)
     = Ok (updates, example_layers R) /\
     committed_vector (run_updates updates (example_state R)) (example_layers R)
     = T.vsub [1; 2; 3]%R [2 * 1; 2 * 2; 2 * 3]%R) /\
  (exists updates,
     init_train_updates (H0 := example_network spec_float) (default_bfgs spec_float)
       (example_state spec_float) (example_layers spec_float)
     = Ok (updates, example_layers spec_float) /\
     committed_vector (run_updates updates (example_state spec_float))
                      (example_layers spec_float)
     = T.vsub [B64.of_Z 1; B64.of_Z 2; B64.of_Z 3]
              [B64.of_Z 2; B64.of_Z 4; B64.of_Z 6]).
Proof.
  destruct committed_step as (Hgeneral & Hexact & Hbinary64).
  split; [|split].
  - pose proof (Hgeneral spec_float binary64 (example_network spec_float)
                  (default_bfgs spec_float) (example_state spec_float)
                  (example_layers spec_float) (example_layers spec_float)
                  (B64.of_Z 1)) as Hrun.
    cbv zeta in Hrun.
    destruct (Hrun ltac:(vm_compute; reflexivity))
      as (updates & Hu & _ & _ & _ & _ & Hc).
    exists updates. split; [exact Hu|].
    rewrite (Hc example_consistent). vm_compute. reflexivity.
  - destruct (Hexact R real (example_network_unit_step R) real_exact
                (default_bfgs R) (example_values R)
                (example_layers R) (example_layers R)
                example_consistent eq_refl eq_refl)
      as (updates & Hu & Hc).
    exists updates. split; [exact Hu | exact Hc].
  - pose proof (Hbinary64 (example_network spec_float) (default_bfgs spec_float)
                  (example_values spec_float)
                  (example_layers spec_float) (example_layers spec_float)) as Hrun.
    cbv zeta in Hrun.
    destruct (Hrun example_consistent eq_refl eq_refl
                ltac:(vm_compute; reflexivity))
      as (updates & Hu & Hc).
    exists updates. split; [exact Hu | exact Hc].
Defined.

Lemma first_epoch_ignores_previous_witness :
  let self := example_state spec_float in
  let other :=
    with_previous self [B64.of_Z 7; B64.of_Z 8; B64.of_Z 9]
                  [B64.of_Z 5; B64.of_Z 5; B64.of_Z 5] in
  init_train_updates (H0 := example_network spec_float) (default_bfgs spec_float)
    other (example_layers spec_float)
  = init_train_updates (H0 := example_network spec_float) (default_bfgs spec_float)
      self (example_layers spec_float) /\
  exists updates,
    init_train_updates (H0 := example_network spec_float) (default_bfgs spec_float)
      self (example_layers spec_float)
    = Ok (updates, example_layers spec_float) /\
    run_updates updates other = run_updates updates self.
Proof.
  cbv zeta.
  destruct (first_epoch_ignores_previous (H0 := example_network spec_float)
              (default_bfgs spec_float) (example_state spec_float)
              [B64.of_Z 7; B64.of_Z 8; B64.of_Z 9]
              [B64.of_Z 5; B64.of_Z 5; B64.of_Z 5]
              (example_layers spec_float) eq_refl) as [Hsame Hstate].
  split; [exact Hsame|].
  pose proof (init_train_updates_run (H0 := example_network spec_float)
                (default_bfgs spec_float) (example_state spec_float)
                (example_layers spec_float) (example_layers spec_float)
                (B64.of_Z 1)) as Hrun.
  cbv zeta in Hrun. specialize (Hrun ltac:(vm_compute; reflexivity)).
  eexists. split; [exact Hrun|].
  apply (Hstate _ _ Hrun).
Defined.

Lemma invalid_configuration_fails_witness :
  QuasiNewton_init (Some "newton"%string) (Some (B64.of_Z 1)) = Raise ValueError /\
  QuasiNewton_init (Some "bfgs"%string) (Some (B64.of_Z (-1))) = Raise ValueError /\
  QuasiNewton_init (Some "sr1"%string) (Some (B64.of_Z 2))
  = Ok {| update_function := "sr1"%string; h0_scale := B64.of_Z 2 |}.
Proof.
  destruct (invalid_configuration_fails (H := example_network spec_float))
    as (Hname & Hneg & _ & _ & _ & Hok).
  split; [|split].
  - apply Hname; discriminate.
  - apply Hneg. vm_compute. reflexivity.
  - apply Hok; [cbn; auto | vm_compute; reflexivity].
Defined.

(** ** Division in the real numbers *)

#[export] Instance real_field : ExactField R.
Proof.
  split.
  - intros x y. unfold asfloat. cbn. unfold Rdiv. ring.
  - intros y Hy. unfold asfloat in *. cbn in *. unfold Rdiv.
    rewrite Rmult_1_l. apply Rinv_r. exact Hy.
Qed.

(** ** Symmetry at concrete inputs *)

Lemma symmetric_2_by_2 {F : Type} `{Scalar F} (a b c : F) :
  symmetric 2 [[a; b]; [b; c]].
Proof.
  split; [split; [reflexivity | repeat constructor]|].
  intros i j Hi Hj. destruct i as [|[|i]], j as [|[|j]]; try lia; reflexivity.
Qed.

Lemma psb_symmetric_witness :
  symmetric 2 (psb [[B64.of_Z 1; B64.of_Z 2]; [B64.of_Z 2; B64.of_Z 3]]
                   [B64.of_Z 1; B64.of_Z 0] [B64.of_Z 1; B64.of_Z 1]).
Proof.
  apply (psb_symmetric (F := spec_float) 2);
    [apply symmetric_2_by_2 | reflexivity | reflexivity].
Defined.

Lemma sr1_symmetric_witness :
  symmetric 2 (sr1 [[B64.of_Z 1; B64.of_Z 2]; [B64.of_Z 2; B64.of_Z 3]]
                   [B64.of_Z 1; B64.of_Z 0] [B64.of_Z 1; B64.of_Z 1]
                   default_epsilon).
Proof.
  apply (sr1_symmetric (F := spec_float) 2);
    [apply symmetric_2_by_2 | reflexivity | reflexivity].
Defined.

Lemma bfgs_symmetric_witness :
  symmetric 2 (bfgs [[1; 2]; [2; 3]]%R [1; 0]%R [1; 1]%R default_maxrho).
Proof.
  apply (bfgs_symmetric (F := R) 2);
    [apply symmetric_2_by_2 | reflexivity | reflexivity].
Defined.

(** ** Shapes of the updates *)

Section Shapes.
Context {F : Type} `{Scalar F}.

Lemma bfgs_shape (n : nat) (H_ : matrix F) (s y : vector F) (maxrho : F) :
  T.is_matrix n n H_ -> length s = n -> length y = n ->
  T.is_matrix n n (bfgs H_ s y maxrho).
Proof.
  intros HH Hs Hy. unfold bfgs. cbv zeta.
  assert (Hn : length H_ = n) by apply HH. rewrite Hn.
  pose proof (is_matrix_outer_n n s y Hs Hy).
  pose proof (is_matrix_outer_n n y s Hy Hs).
  pose proof (is_matrix_outer_n n s s Hs Hs).
  unfold_ops. shape.
Qed.

Lemma dfp_shape (n : nat) (H_ : matrix F) (s y : vector F) (maxnum : F) :
  T.is_matrix n n H_ -> length s = n -> length y = n ->
  T.is_matrix n n (dfp H_ s y maxnum).
Proof.
  intros HH Hs Hy. unfold dfp. cbv zeta.
  assert (Hq : length (T.dot_mv H_ y) = n) by (rewrite length_dot_mv; apply HH).
  pose proof (is_matrix_outer_n n s s Hs Hs).
  pose proof (is_matrix_outer_n n (T.dot_mv H_ y) y Hq Hy).
  unfold_ops. shape.
Qed.

Lemma psb_shape (n : nat) (H_ : matrix F) (s y : vector F) :
  T.is_matrix n n H_ -> length s = n -> length y = n ->
  T.is_matrix n n (psb H_ s y).
Proof.
  intros HH Hs Hy. unfold psb. cbv zeta.
  assert (Hr : length (T.vsub s (T.dot_mv H_ y)) = n).
  { apply length_vsub; [exact Hs|]. rewrite length_dot_mv. apply HH. }
  pose proof (is_matrix_outer_n n _ y Hr Hy).
  pose proof (is_matrix_outer_n n y _ Hy Hr).
  pose proof (is_matrix_outer_n n y y Hy Hy).
  unfold_ops. shape.
Qed.

Lemma sr1_shape (n : nat) (H_ : matrix F) (s y : vector F) (epsilon : F) :
  T.is_matrix n n H_ -> length s = n -> length y = n ->
  T.is_matrix n n (sr1 H_ s y epsilon).
Proof.
  intros HH Hs Hy. unfold sr1. cbv zeta.
  assert (Hr : length (T.vsub s (T.dot_mv H_ y)) = n).
  { apply length_vsub; [exact Hs|]. rewrite length_dot_mv. apply HH. }
  pose proof (is_matrix_outer_n n _ _ Hr Hr).
  destruct (T.lt _ _); cbn [T.ifelse]; [exact HH|].
  unfold_ops. shape.
Qed.

(** Whichever update function the optimiser is configured with, the
    update of an [n] by [n] matrix from two [n]-vectors is [n] by [n]. *)
Theorem update_functions_keep_shape (name : string)
    (update_function : matrix F -> vector F -> vector F -> matrix F)
    (n : nat) (H_ : matrix F) (s y : vector F) :
  choice update_function_choices name = Some update_function ->
  T.is_matrix n n H_ -> length s = n -> length y = n ->
  T.is_matrix n n (update_function H_ s y).
Proof.
  intros Hc HH Hs Hy. unfold choice, update_function_choices in Hc.
  cbn [find fst] in Hc.
  repeat (match type of Hc with
          | context [String.eqb ?a name] => destruct (String.eqb a name)
          end; cbv [fmap option_fmap option_map snd] in Hc; [injection Hc as <-|]).
  - apply bfgs_shape; assumption.
  - apply dfp_shape; assumption.
  - apply psb_shape; assumption.
  - apply sr1_shape; assumption.
  - discriminate.
Qed.
End Shapes.

Lemma update_functions_keep_shape_witness :
  T.is_matrix 2 2
    (dfp [[B64.of_Z 1; B64.of_Z 2]; [B64.of_Z 2; B64.of_Z 3]]
         [B64.of_Z 1; B64.of_Z 0] [B64.of_Z 1; B64.of_Z 1] default_maxnum).
Proof.
  apply (update_functions_keep_shape (F := spec_float) "dfp"%string
           (fun h s y => dfp h s y default_maxnum) 2);
    [reflexivity | split; [reflexivity | repeat constructor]
    | reflexivity | reflexivity].
Defined.

(** ** The secant equation *)

Section Secant.
Context {F : Type} `{ExactField F}.

Add Ring exact_ring_secant : exact_ring_theory.

Lemma bigsum_mul_l (n : nat) (f : nat -> F) (c : F) :
  (c * bigsum n f)%fl = bigsum n (fun k => (c * f k)%fl).
Proof.
  rewrite exact_mul_comm, bigsum_mul_r. apply bigsum_ext. intros k _. ring.
Qed.

Lemma vector_ext (n : nat) (x y : vector F) :
  length x = n -> length y = n ->
  (forall i, i < n -> T.vget x i = T.vget y i) -> x = y.
Proof.
  intros Hx Hy Hxy. apply (nth_ext _ _ (asfloat 0) (asfloat 0)); [lia|].
  intros i Hi. apply Hxy. lia.
Qed.

(** The secant equation of SR1: when the update is not skipped and
    the denominator r.y is not zero, the updated matrix maps y to s. *)
Theorem sr1_secant (n : nat) (H_ : matrix F) (s y : vector F) (epsilon : F) :
  T.is_matrix n n H_ -> length s = n -> length y = n ->
  T.lt (T.abs_ (sr1_denominator H_ s y))
       (epsilon * T.norm2 (sr1_residual H_ s y) * T.norm2 y)%fl = false ->
  sr1_denominator H_ s y <> asfloat 0 ->
  T.dot_mv (sr1 H_ s y epsilon) y = s.
Proof.
  intros HH Hs Hy Hskip Hd. unfold sr1. cbv zeta.
  unfold sr1_denominator, sr1_residual in Hskip, Hd. rewrite Hskip. cbn [T.ifelse].
  set (r := T.vsub s (T.dot_mv H_ y)) in *.
  set (d := T.dot r y) in *.
  assert (Hq : length (T.dot_mv H_ y) = n) by (rewrite length_dot_mv; apply HH).
  assert (Hr : length r = n) by (apply length_vsub; assumption).
  pose proof (is_matrix_outer_n n r r Hr Hr) as Hrr.
  assert (HM : T.is_matrix n n (T.add H_ (T.div_s (T.outer r r) d)))
    by (unfold_ops; shape).
  apply (vector_ext n); [rewrite length_dot_mv; apply HM | exact Hs |].
  intros i Hi. rewrite (vget_dot_mv n n _ _ _ HM Hy Hi).
  rewrite (bigsum_ext n _
             (fun k => (T.mget H_ i k * T.vget y k
                        + (T.vget r k * T.vget y k)
                          * (T.vget r i * (asfloat 1 / d)))%fl)).
  - rewrite bigsum_add, <- bigsum_mul_r.
    rewrite <- (dot_as_bigsum r y n Hr Hy). fold d.
    rewrite <- (vget_dot_mv n n H_ y i HH Hy Hi).
    replace (d * (T.vget r i * (asfloat 1 / d)))%fl
      with (T.vget r i * (d * (asfloat 1 / d)))%fl by ring.
    rewrite (exact_inv_r d Hd).
    unfold r at 1. unfold T.vsub. rewrite vget_zip_with by lia. ring.
  - intros k Hk. unfold T.add, T.div_s.
    rewrite (mget_zip_m _ n n), (mget_map_m _ n n), mget_outer by shape.
    rewrite exact_div_def. ring.
Qed.

(** The secant equation of PSB: when y.y is not zero, the updated
    matrix maps y to s. *)
Theorem psb_secant (n : nat) (H_ : matrix F) (s y : vector F) :
  T.is_matrix n n H_ -> length s = n -> length y = n ->
  T.dot y y <> asfloat 0 ->
  T.dot_mv (psb H_ s y) y = s.
Proof.
  intros HH Hs Hy HN. unfold psb. cbv zeta.
  set (r := T.vsub s (T.dot_mv H_ y)).
  set (N := T.dot y y) in *.
  set (dv := (asfloat 1 / N)%fl).
  set (c := T.dot y r).
  assert (Hq : length (T.dot_mv H_ y) = n) by (rewrite length_dot_mv; apply HH).
  assert (Hr : length r = n) by (apply length_vsub; assumption).
  pose proof (is_matrix_outer_n n r y Hr Hy) as Hry.
  pose proof (is_matrix_outer_n n y r Hy Hr) as Hyr.
  pose proof (is_matrix_outer_n n y y Hy Hy) as Hyy.
  pose proof (exact_inv_r N HN) as Hinv. fold dv in Hinv.
  match goal with |- T.dot_mv ?M y = s => set (M' := M) end.
  assert (HM : T.is_matrix n n M') by (subst M'; unfold_ops; shape).
  apply (vector_ext n); [rewrite length_dot_mv; apply HM | exact Hs |].
  intros i Hi. rewrite (vget_dot_mv n n _ _ _ HM Hy Hi).
  rewrite (bigsum_ext n _
             (fun k => (T.mget H_ i k * T.vget y k
                        + (T.vget y k * T.vget y k) * (T.vget r i * dv)
                        + (T.vget y k * T.vget r k) * (T.vget y i * dv)
                        + (T.vget y k * T.vget y k)
                          * (- (c * T.vget y i * (dv * dv))))%fl)).
  - rewrite !bigsum_add, <- !bigsum_mul_r.
    rewrite <- (dot_as_bigsum y y n Hy Hy), <- (dot_as_bigsum y r n Hy Hr).
    fold N c.
    rewrite <- (vget_dot_mv n n H_ y i HH Hy Hi).
    replace (N * (T.vget r i * dv))%fl with (T.vget r i * (N * dv))%fl by ring.
    replace (N * - (c * T.vget y i * (dv * dv)))%fl
      with (- (c * T.vget y i * dv) * (N * dv))%fl by ring.
    rewrite Hinv.
    unfold r at 1. unfold T.vsub. rewrite vget_zip_with by lia. ring.
  - intros k Hk. subst M'. unfold_ops. entries n. ring.
Qed.

(** The secant equation of BFGS: when y.s is not zero (and rho is not
    replaced by the guard), the updated matrix maps y to s. *)
Theorem bfgs_secant (n : nat) (H_ : matrix F) (s y : vector F) (maxrho : F) :
  T.is_matrix n n H_ -> length s = n -> length y = n ->
  T.dot y s <> asfloat 0 ->
  T.isinf (asfloat 1 / T.dot y s)%fl = false ->
  T.dot_mv (bfgs H_ s y maxrho) y = s.
Proof.
  intros HH Hs Hy Ha Hfin. unfold bfgs. cbv zeta. rewrite Hfin. cbn [T.ifelse].
  set (a := T.dot y s) in *.
  set (rho := (asfloat 1 / a)%fl).
  pose proof (exact_inv_r a Ha) as Hinv. fold rho in Hinv.
  assert (Hn : length H_ = n) by apply HH. rewrite Hn.
  pose proof (is_matrix_outer_n n s y Hs Hy) as Hsy.
  pose proof (is_matrix_outer_n n y s Hy Hs) as Hys.
  pose proof (is_matrix_outer_n n s s Hs Hs) as Hss.
  set (A := T.sub (T.eye n) (T.scale_r (T.outer s y) rho)).
  set (B := T.sub (T.eye n) (T.scale_r (T.outer y s) rho)).
  assert (HA : T.is_matrix n n A) by (subst A; unfold_ops; shape).
  assert (HB : T.is_matrix n n B) by (subst B; unfold_ops; shape).
  set (AH := T.dot_mm A H_).
  assert (HAH : T.is_matrix n n AH) by (subst AH; shape).
  assert (Hsum : bigsum n (fun j => (T.vget s j * T.vget y j)%fl) = a).
  { unfold a. rewrite (dot_as_bigsum y s n Hy Hs).
    apply bigsum_ext. intros j _. ring. }
  assert (HBy : forall k, k < n ->
            bigsum n (fun j => (T.mget B k j * T.vget y j)%fl) = asfloat 0).
  { intros k Hk.
    rewrite (bigsum_ext n _
               (fun j => ((if Nat.eqb k j then asfloat 1 else asfloat 0) * T.vget y j
                          + (T.vget s j * T.vget y j) * (- (T.vget y k * rho)))%fl)).
    - rewrite bigsum_add, bigsum_delta, <- bigsum_mul_r, Hsum.
      destruct (Nat.ltb_spec k n); [|lia].
      replace (T.vget y k + a * - (T.vget y k * rho))%fl
        with (T.vget y k + - (T.vget y k * (a * rho)))%fl by ring.
      rewrite Hinv. ring.
    - intros j Hj. subst B. unfold_ops. entries n. ring. }
  match goal with |- T.dot_mv ?M y = s => set (M' := M) end.
  assert (HM : T.is_matrix n n M') by (subst M'; unfold T.add, T.scale_l; shape).
  apply (vector_ext n); [rewrite length_dot_mv; apply HM | exact Hs |].
  intros i Hi. rewrite (vget_dot_mv n n _ _ _ HM Hy Hi).
  rewrite (bigsum_ext n _
             (fun j => (bigsum n (fun k => T.mget AH i k * (T.mget B k j * T.vget y j))
                        + (T.vget s j * T.vget y j) * (rho * T.vget s i))%fl)).
  - rewrite bigsum_add, bigsum_exchange, <- bigsum_mul_r, Hsum.
    rewrite (bigsum_ext n _ (fun _ => asfloat 0)).
    + rewrite bigsum_zero.
      replace (asfloat 0 + a * (rho * T.vget s i))%fl
        with (T.vget s i * (a * rho))%fl by ring.
      rewrite Hinv. ring.
    + intros k Hk. rewrite <- bigsum_mul_l, (HBy k Hk). ring.
  - intros j Hj. subst M'. unfold T.add, T.scale_l. entries n.
    rewrite (mget_dot_mm n) by shape.
    match goal with |- ((?X + _) * _)%fl = _ => set (X' := X) end.
    replace ((X' + rho * (T.vget s i * T.vget s j)) * T.vget y j)%fl
      with (X' * T.vget y j + T.vget s j * T.vget y j * (rho * T.vget s i))%fl
      by ring.
    subst X'. rewrite bigsum_mul_r.
    f_equal. apply bigsum_ext. intros k _. ring.
Qed.

(** From a diagonal matrix, such as the scaled identity the optimiser
    starts from, [dfp] does return a symmetric matrix: its entry-by-entry
    product then vanishes off the diagonal. *)
Theorem dfp_symmetric_from_diagonal (n : nat) (H_ : matrix F) (s y : vector F)
    (maxnum : F) :
  diagonal n H_ -> length s = n -> length y = n ->
  symmetric n (dfp H_ s y maxnum).
Proof.
  intros [HH Hdiag] Hs Hy. split; [apply dfp_shape; assumption|].
  intros i j Hi Hj. rewrite !(dfp_entry n) by assumption.
  destruct (Nat.eq_dec i j) as [->|Hne]; [reflexivity|].
  rewrite (Hdiag i j Hi Hj Hne), (Hdiag j i Hj Hi (not_eq_sym Hne)).
  replace (T.vget (T.dot_mv H_ y) i * T.vget y j * asfloat 0)%fl
    with (asfloat 0 : F) by ring.
  replace (T.vget (T.dot_mv H_ y) j * T.vget y i * asfloat 0)%fl
    with (asfloat 0 : F) by ring.
  rewrite (exact_mul_comm (T.vget s i) (T.vget s j)). reflexivity.
Qed.
End Secant.

Lemma sr1_secant_witness :
  T.dot_mv (sr1 [[1; 2]; [2; 3]]%R [1; 0]%R [1; 1]%R 0%R) [1; 1]%R = [1; 0]%R.
Proof.
  apply (sr1_secant (F := R) 2);
    [split; [reflexivity | repeat constructor] | reflexivity | reflexivity | |
     unfold sr1_denominator, sr1_residual, asfloat; cbn; lra].
  unfold T.lt, T.abs_. cbn [f_lt f_abs f_mul real]. unfold Real.lt.
  destruct (Rlt_dec _ _) as [Hlt|]; [|reflexivity].
  rewrite !Rmult_0_l in Hlt.
  pose proof (Rabs_pos (sr1_denominator [[1; 2]; [2; 3]]%R [1; 0]%R [1; 1]%R)).
  lra.
Defined.

Lemma psb_secant_witness :
  T.dot_mv (psb [[1; 2]; [2; 3]]%R [1; 0]%R [1; 1]%R) [1; 1]%R = [1; 0]%R.
Proof.
  apply (psb_secant (F := R) 2);
    [split; [reflexivity | repeat constructor] | reflexivity | reflexivity
    | unfold asfloat; cbn; lra].
Defined.

Lemma bfgs_secant_witness :
  T.dot_mv (bfgs [[1; 2]; [2; 3]]%R [1; 0]%R [1; 1]%R default_maxrho) [1; 1]%R
  = [1; 0]%R.
Proof.
  apply (bfgs_secant (F := R) 2);
    [split; [reflexivity | repeat constructor] | reflexivity | reflexivity
    | unfold asfloat; cbn; lra | reflexivity].
Defined.

Lemma dfp_symmetric_from_diagonal_witness :
  symmetric 2 (dfp [[2; 0]; [0; 3]]%R [1; 0]%R [1; 1]%R default_maxnum).
Proof.
  apply (dfp_symmetric_from_diagonal (F := R) 2); [|reflexivity|reflexivity].
  split; [split; [reflexivity | repeat constructor]|].
  intros i j Hi Hj Hij. destruct i as [|[|i]], j as [|[|j]]; try lia; reflexivity.
Defined.

(** ** Parameter names *)

Section Lookup.
Context {F : Type}.

(** [find_param_name] returns the name of the first member that is the
    parameter, and [None] exactly when no member is. *)
Theorem find_param_name_first_match (l : layer F) (parameter : nat) :
  match find_param_name l parameter with
  | Some name =>
      exists before after,
        members l = before ++ (name, Shared parameter) :: after /\
        forall kv, In kv before -> snd kv <> Shared parameter
  | None => forall kv, In kv (members l) -> snd kv <> Shared parameter
  end.
Proof.
  unfold find_param_name. induction (members l) as [|[k v] ms IH]; cbn.
  - intros kv [].
  - destruct (is_ v parameter) eqn:Hv.
    + exists [], ms. split; [|intros kv []].
      destruct v as [q|e]; [|discriminate]. cbn in Hv.
      apply Nat.eqb_eq in Hv. subst q. reflexivity.
    + assert (Hne : v <> Shared parameter).
      { intros ->. cbn in Hv. rewrite Nat.eqb_refl in Hv. discriminate. }
      destruct (first_member_with ms parameter) as [name|].
      * destruct IH as (before & after & -> & Hb).
        exists ((k, v) :: before), after. split; [reflexivity|].
        intros kv [<-|Hin]; [exact Hne | apply Hb, Hin].
      * intros kv [<-|Hin]; [exact Hne | apply IH, Hin].
Qed.

Lemma iter_entries_parameters (g : nat -> nat) (layers : list (layer F)) :
  map snd
    (concat (imap (fun i l =>
                     map (fun parameter => (g i, find_param_name l parameter, parameter))
                         (parameters l)) layers))
  = concat (map parameters layers).
Proof.
  revert g. induction layers as [|l layers IH]; intros g; [reflexivity|].
  rewrite imap_cons. cbn [concat map]. rewrite map_app. f_equal.
  - rewrite map_map. cbn. apply map_id.
  - apply (IH (g ∘ S)).
Qed.

(** [iter_layers_and_parameters] yields the parameters of the layers,
    layer after layer and in the order of each [parameters] list, each
    with its layer and with the name [find_param_name] gives it. *)
Theorem iter_layers_and_parameters_order (layers : list (layer F)) :
  map snd (iter_layers_and_parameters layers) = concat (map parameters layers) /\
  forall i a p,
    In (i, a, p) (iter_layers_and_parameters layers) <->
    exists l, layers !! i = Some l /\ In p (parameters l) /\ a = find_param_name l p.
Proof.
  split; [apply (iter_entries_parameters (fun i => i))|].
  intros i a p. unfold iter_layers_and_parameters. rewrite in_concat. split.
  - intros (entries & Hentries & Hin).
    apply list_elem_of_In, elem_of_lookup_imap in Hentries.
    destruct Hentries as (i' & l & -> & Hl).
    apply in_map_iff in Hin. destruct Hin as (p' & [= <- <- <-] & Hp).
    exists l. auto.
  - intros (l & Hl & Hp & ->).
    exists (map (fun parameter => (i, find_param_name l parameter, parameter))
                (parameters l)).
    split.
    + apply list_elem_of_In, elem_of_lookup_imap. exists i, l. auto.
    + apply in_map_iff. exists p. auto.
Qed.
End Lookup.

Lemma find_param_name_first_match_witness :
  exists before after,
    [("bias"%string, Shared 1); ("weight"%string, Shared 0)]
    = before ++ ("weight"%string, Shared 0) :: after /\
    forall kv : string * pyobj spec_float, In kv before -> snd kv <> Shared 0.
Proof.
  exact (find_param_name_first_match
           {| members := [("bias"%string, Shared 1); ("weight"%string, Shared 0)];
              parameters := [0; 1] |} 0).
Defined.

Lemma iter_layers_and_parameters_order_witness :
  map snd (iter_layers_and_parameters (example_layers spec_float)) = [0; 1].
Proof.
  exact (proj1 (iter_layers_and_parameters_order (example_layers spec_float))).
Defined.

(** ** Trial evaluation on layers that hide a parameter *)

Section Probing.
Context {F : Type} `{Scalar F} `{Network F}.

Lemma resolve_None (lps : list (nat * option string * nat)) (i p : nat) :
  In (i, None, p) lps -> resolve lps = None.
Proof.
  induction lps as [|[[i' a'] p'] lps IH]; [intros []|].
  intros [[= -> -> ->]|Hin]; [reflexivity|].
  cbn. rewrite (IH Hin). destruct a'; reflexivity.
Qed.

(** A parameter of a layer that is not the value of any attribute of
    the layer makes every trial evaluation raise [TypeError]:
    [find_param_name] gives [None] for it and [setattr] refuses the
    name. *)
Theorem probes_raise_on_unlinked_parameter (values : nat -> tensor F)
    (param_vector param_delta : vector F) (layers : list (layer F))
    (step : sym F F) (i : nat) (l : layer F) (p : nat) :
  layers !! i = Some l -> In p (parameters l) ->
  (forall kv, In kv (members l) -> snd kv <> Shared p) ->
  let lps := iter_layers_and_parameters layers in
  prediction values param_vector param_delta lps step layers = Raise TypeError /\
  phi values param_vector param_delta lps step layers = Raise TypeError /\
  derphi values param_vector param_delta lps step layers = Raise TypeError.
Proof.
  intros Hl Hp Hno lps.
  assert (Hname : find_param_name l p = None).
  { destruct (find_param_name l p) as [name|] eqn:Hname; [|reflexivity].
    apply first_member_with_In in Hname. destruct (Hno _ Hname). reflexivity. }
  assert (Hres : resolve lps = None).
  { apply (resolve_None lps i p).
    unfold lps, iter_layers_and_parameters. apply in_concat.
    exists (map (fun parameter => (i, find_param_name l parameter, parameter))
                (parameters l)).
    split.
    - apply list_elem_of_In, elem_of_lookup_imap. exists i, l. auto.
    - apply in_map_iff. exists p. rewrite Hname. auto. }
  assert (Hpred : prediction values param_vector param_delta lps step layers
                  = Raise TypeError).
  { unfold prediction. cbv zeta. unfold mbind, py_bind, bind.
    rewrite substitute_run, Hres. reflexivity. }
  split; [exact Hpred|].
  unfold phi, derphi, mbind, py_bind, bind. rewrite Hpred. split; reflexivity.
Qed.
End Probing.

Lemma probes_raise_on_unlinked_parameter_witness :
  let layers : list (layer spec_float) :=
    [ {| members := [("weight"%string, Shared 0)]; parameters := [0; 1] |} ] in
  phi (H0 := example_network spec_float) (example_values spec_float)
      [B64.of_Z 1; B64.of_Z 2; B64.of_Z 3] [B64.of_Z 1; B64.of_Z 1; B64.of_Z 1]
      (iter_layers_and_parameters layers) (fun t => t) layers
  = Raise TypeError.
Proof.
  cbv zeta.
  refine (proj1 (proj2 (probes_raise_on_unlinked_parameter
            (H0 := example_network spec_float) (example_values spec_float)
            [B64.of_Z 1; B64.of_Z 2; B64.of_Z 3]
            [B64.of_Z 1; B64.of_Z 1; B64.of_Z 1]
            [ {| members := [("weight"%string, Shared 0)]; parameters := [0; 1] |} ]
            (fun t => t) 0 _ 1 eq_refl _ _))).
  - right. left. reflexivity.
  - intros kv [<-|[]]. discriminate.
Defined.

(** ** The attributes during a trial evaluation *)

Section TrialStore.
Context {F : Type} `{Scalar F}.








End TrialStore.



(** ** Shapes along the training *)

Section InitialState.
Context {F : Type} `{Scalar F}.

(** [init_variables] starts the optimiser with a symmetric [n] by [n]
    matrix and two vectors of length [n], at epoch 1, where [n] is the
    number of entries of the parameters; with consistent tensors, [n] is
    the length of the parameter vector. *)
Theorem init_variables_shapes (h0_scale : F) (values : nat -> tensor F)
    (layers : list (layer F)) :
  let self := init_variables h0_scale values layers in
  let n := list_sum (map (fun p => tensor_size (values p)) (iter_parameters layers)) in
  epoch self = 1%Z /\
  symmetric n (inv_hessian self) /\
  length (prev_params self) = n /\
  length (prev_full_gradient self) = n /\
  (forall i, i < n -> T.vget (prev_params self) i = asfloat 0 /\
                      T.vget (prev_full_gradient self) i = asfloat 0) /\
  (tensors_consistent values layers -> length (committed_vector self layers) = n).
Proof.
  intros self n. split; [reflexivity|].
  assert (HI : T.is_matrix n n (T.eye n)) by apply is_matrix_eye.
  split; [|split; [|split; [|split]]].
  - split.
    + unfold self, init_variables. cbn [inv_hessian]. fold n.
      unfold T.scale_l. apply is_matrix_map_m, HI.
    + intros i j Hi Hj. unfold self, init_variables. cbn [inv_hessian]. fold n.
      unfold T.scale_l. rewrite !(mget_map_m _ n n) by assumption.
      rewrite !mget_eye by assumption. rewrite (Nat.eqb_sym j i). reflexivity.
  - apply repeat_length.
  - apply repeat_length.
  - intros i Hi. unfold self, init_variables. cbn [prev_params prev_full_gradient].
    fold n. unfold T.vget, T.zeros. rewrite nth_repeat. auto.
  - intros [_ Hc]. apply (length_parameters2vector values layers Hc).
Qed.
End InitialState.

Lemma init_variables_shapes_witness :
  symmetric 3 (inv_hessian (example_state spec_float)) /\
  length (committed_vector (example_state spec_float) (example_layers spec_float)) = 3.
Proof.
  destruct (init_variables_shapes (B64.of_Z 1)
              (example_values spec_float) (example_layers spec_float))
    as (_ & Hsym & _ & _ & _ & Hlen).
  split; [exact Hsym | exact (Hlen example_consistent)].
Defined.

Section Invariant.
Context {F : Type} `{Scalar F} `{Network F}.

Lemma length_vadd_scaled (n : nat) (p d : vector F) (alpha : F) :
  length p = n -> length d = n ->
  length (T.vadd p (T.vscale_l alpha d)) = n.
Proof.
  intros Hp Hd. unfold T.vadd, T.vscale_l.
  rewrite length_zip_with, length_map. lia.
Qed.

(** One iteration keeps the shapes of the optimiser's variables, and
    with them any property of [n] by [n] matrices that the update
    function keeps: when the stored matrix has the property, the stored
    vectors, the parameter vector and the gradient have length [n], and
    the line search returns, then after the updates are committed the
    inverse Hessian has the property again and the stored vectors and
    the parameter vector have length [n] again. *)
Theorem iteration_keeps_invariant (P : matrix F -> Prop) (n : nat)
    (update_function : update_fn) (self : shared_state F)
    (layers layers' : list (layer F)) (alpha : F) :
  let p := parameters2vector (get_value self) layers in
  let g := full_gradient_of self layers in
  let d := param_delta_of (new_inv_hessian update_function self p g) g in
  let lps := iter_layers_and_parameters layers in
  (forall M, P M -> T.is_matrix n n M) ->
  (forall M s y, P M -> length s = n -> length y = n -> P (update_function M s y)) ->
  tensors_consistent (get_value self) layers ->
  P (inv_hessian self) ->
  length (prev_params self) = n -> length (prev_full_gradient self) = n ->
  length p = n -> length g = n ->
  line_search (phi (get_value self) p d lps) (derphi (get_value self) p d lps) layers
  = Ok (alpha, layers') ->
  exists updates,
    init_train_updates update_function self layers = Ok (updates, layers') /\
    P (inv_hessian (run_updates updates self)) /\
    length (prev_params (run_updates updates self)) = n /\
    length (prev_full_gradient (run_updates updates self)) = n /\
    length (committed_vector (run_updates updates self) layers) = n.
Proof.
  intros p g d lps Hshape Hkeep Hc HP Hpp Hpg Hp Hg Hls.
  pose proof (init_train_updates_run update_function self layers layers' alpha)
    as Hrun.
  cbv zeta in Hrun. fold p g lps in Hrun. fold d in Hrun. specialize (Hrun Hls).
  eexists. split; [exact Hrun|].
  assert (HP1 : P (new_inv_hessian update_function self p g)).
  { unfold new_inv_hessian. destruct (Z.eqb (epoch self) 1); cbn [T.ifelse].
    - exact HP.
    - apply Hkeep; [exact HP | apply length_vsub | apply length_vsub]; assumption. }
  assert (Hd : length d = n).
  { unfold d, param_delta_of, T.vneg. rewrite length_map, length_dot_mv.
    apply (Hshape _ HP1). }
  rewrite committed_vector_after.
  - rewrite run_iteration_updates.
    cbn [inv_hessian prev_params prev_full_gradient].
    split; [exact HP1|]. split; [exact Hp|]. split; [exact Hg|].
    apply length_vadd_scaled; assumption.
  - exact Hc.
  - rewrite (length_vadd_scaled n) by assumption. fold p. lia.
Qed.
End Invariant.

Lemma iteration_keeps_invariant_witness :
  exists updates,
    init_train_updates (H0 := example_network_unit_step spec_float)
      (fun h s y => psb h s y) (example_state_later spec_float)
      (example_layers spec_float)
    = Ok (updates, example_layers spec_float) /\
    T.is_matrix 3 3
      (inv_hessian (run_updates updates (example_state_later spec_float))) /\
    length (committed_vector (run_updates updates (example_state_later spec_float))
                             (example_layers spec_float)) = 3.
Proof.
  destruct (iteration_keeps_invariant (H0 := example_network_unit_step spec_float)
              (T.is_matrix 3 3) 3 (fun h s y => psb h s y)
              (example_state_later spec_float)
              (example_layers spec_float) (example_layers spec_float) (B64.of_Z 1)
              (fun M HM => HM)
              (fun M s y => psb_shape 3 M s y)
              example_consistent
              ltac:(split; [reflexivity | repeat constructor])
              eq_refl eq_refl eq_refl eq_refl eq_refl)
    as (updates & Hrun & HP & _ & _ & Hlen).
  exists updates. split; [exact Hrun|]. split; [exact HP | exact Hlen].
Defined.

(** ** The first direction *)

Section FirstDirection.
Context {F : Type} `{ExactRing F} `{Network F}.

Add Ring exact_ring_first : exact_ring_theory.

(** In exact arithmetic the first direction is the gradient scaled by
    [- h0_scale]: from [init_variables], whatever the update function,
    the first iteration is a step of gradient descent. *)
Theorem first_direction_is_scaled_gradient (update_function : update_fn)
    (h0_scale : F) (values : nat -> tensor F) (layers : list (layer F)) :
  let self := init_variables h0_scale values layers in
  let p := parameters2vector values layers in
  let g := full_gradient_of self layers in
  length g
  = list_sum (map (fun q => tensor_size (values q)) (iter_parameters layers)) ->
  param_delta_of (new_inv_hessian update_function self p g) g
  = T.vneg (T.vscale_l h0_scale g).
Proof.
  intros self p g Hg.
  set (n := list_sum (map (fun q => tensor_size (values q)) (iter_parameters layers)))
    in *.
  unfold new_inv_hessian. change (epoch self) with 1%Z. cbn [Z.eqb Pos.eqb T.ifelse].
  change (inv_hessian self) with (T.scale_l h0_scale (T.eye n)).
  assert (HM : T.is_matrix n n (T.scale_l h0_scale (T.eye n)))
    by (unfold T.scale_l; apply is_matrix_map_m, is_matrix_eye).
  unfold param_delta_of, T.vneg, T.vscale_l.
  apply (nth_ext _ _ (asfloat 0) (asfloat 0)).
  - rewrite !length_map, length_dot_mv. destruct HM as [-> _]. lia.
  - intros i Hi. rewrite length_map, length_dot_mv in Hi.
    destruct HM as [HMn HMr]. rewrite HMn in Hi.
    rewrite !(nth_map_lt _ _ i (asfloat 0))
      by (rewrite ?length_map, ?length_dot_mv; lia).
    f_equal.
    change (nth i (T.dot_mv (T.scale_l h0_scale (T.eye n)) g) (asfloat 0))
      with (T.vget (T.dot_mv (T.scale_l h0_scale (T.eye n)) g) i).
    rewrite (vget_dot_mv n n) by (try split; auto; lia).
    rewrite (bigsum_ext n _
               (fun k => ((if Nat.eqb i k then asfloat 1 else asfloat 0)
                          * (h0_scale * T.vget g k))%fl)).
    + rewrite bigsum_delta. destruct (Nat.ltb_spec i n); [|lia]. reflexivity.
    + intros k Hk. unfold T.scale_l.
      rewrite (mget_map_m _ n n) by (auto using is_matrix_eye; lia).
      rewrite mget_eye by lia. ring.
Qed.
End FirstDirection.

Lemma first_direction_is_scaled_gradient_witness :
  param_delta_of
    (new_inv_hessian (default_bfgs R) (init_variables 2%R (example_values R)
                                         (example_layers R))
       (parameters2vector (example_values R) (example_layers R))
       (full_gradient_of (H0 := example_network R)
          (init_variables 2%R (example_values R) (example_layers R))
          (example_layers R)))
    (full_gradient_of (H0 := example_network R)
       (init_variables 2%R (example_values R) (example_layers R))
       (example_layers R))
  = T.vneg (T.vscale_l 2%R
              (full_gradient_of (H0 := example_network R)
                 (init_variables 2%R (example_values R) (example_layers R))
                 (example_layers R))).
Proof.
  apply (first_direction_is_scaled_gradient (H1 := example_network R)
           (default_bfgs R) 2%R (example_values R) (example_layers R)).
  reflexivity.
Defined.
